(** * TempBox: an in-memory key/value store with per-key TTL

    A shallow embedding of the class [TempBox] of the package [tempbox],
    together with the parts of its environment its behaviour depends on: the
    clock read by [Date.now()], the event loop's table of pending
    [setTimeout] registrations, and the calls made to the lifecycle
    callbacks.

    - Numbers are integers (milliseconds): [number | null] is [option Z],
      and JavaScript truthiness of such a value is [truthy].
    - A value of type [any] is a [JsValue]; [undefined] is one of them.
    - The table [data] is a finite map from strings; the queue is the array
      of the binary heap of [tinyqueue].
    - The callbacks are observers: the model records each call
      [this.onX?.(...)] (which reaches the callback when one was given to
      the constructor), and a callback neither throws nor calls back into
      the store.
    - [setTimeout] is Node's: a delay below 1 ms or above [TIMEOUT_MAX]
      counts as 1 ms, and the event loop runs a registration when it is due
      or later.
    - A method runs to completion at one instant of the clock; between two
      events ([Event]) nothing happens. *)

From Stdlib Require Import ZArith Lia ZifyNat.
From stdpp Require Import gmap strings list fin_maps.

Local Open Scope string_scope.
Local Open Scope list_scope.
Local Open Scope Z_scope.

(** ** Values *)

(** The values a caller can store ([value: any]).  [JUndefined] matters:
    [get] answers [undefined] for a missing key, and [has] compares the
    answer of [get] with [undefined]. *)
Inductive JsValue : Type :=
  | JUndefined
  | JNull
  | JBool (b : bool)
  | JNum (n : Z)
  | JStr (s : string).

#[global] Instance JsValue_eq_dec : EqDecision JsValue.
Proof. solve_decision. Defined.

(** [type QueuedValue = { expiresAt: number; key: string }] *)
Record QueuedValue : Type := mkQueued {
  qv_expiresAt : Z;
  qv_key : string
}.

#[global] Instance QueuedValue_eq_dec : EqDecision QueuedValue.
Proof. solve_decision. Defined.

(** [type MapType = { value: any; expiresAt: number }]; the field holds
    [null] when [set] was called without a TTL. *)
Record MapType : Type := mkEntry {
  value : JsValue;
  expiresAt : option Z
}.

#[global] Instance MapType_eq_dec : EqDecision MapType.
Proof. solve_decision. Defined.

(** JavaScript truthiness of a [number | null | undefined]: [null],
    [undefined] and [0] are falsy. *)
Definition truthy (n : option Z) : bool :=
  match n with
  | Some z => negb (z =? 0)
  | None => false
  end.

(** ** The priority queue

    [TinyQueue] is the binary heap of the package [tinyqueue] (version 3),
    the only dependency of the store.  The heap lives in an array [data];
    its [length] field always equals the length of the array, so the model
    keeps the array only. *)
Module TinyQueue.

Abbreviation t := (list QueuedValue).

(** The comparator the store passes to the constructor:
    [(a, b) => a.expiresAt - b.expiresAt]. *)
Definition compare (a b : QueuedValue) : Z := qv_expiresAt a - qv_expiresAt b.

Definition empty : t := [].

Definition length (q : t) : nat := List.length q.

(** [peek() { return this.data[0]; }] *)
Definition peek (q : t) : option QueuedValue := q !! 0%nat.

(** The loop of [_up(pos)]: the parent moves down while it compares
    greater than [item].  [pos] strictly decreases, so [pos] steps of fuel
    are enough. *)
Fixpoint _up_loop (fuel : nat) (data : t) (item : QueuedValue) (pos : nat) : t :=
  match fuel with
  | O => <[pos := item]> data
  | S fuel' =>
      if (pos =? 0)%nat then <[pos := item]> data
      else
        let parent := ((pos - 1) / 2)%nat in
        match data !! parent with
        | None => <[pos := item]> data
        | Some current =>
            if 0 <=? compare item current then <[pos := item]> data
            else _up_loop fuel' (<[pos := current]> data) item parent
        end
  end.

Definition _up (data : t) (pos : nat) : t :=
  match data !! pos with
  | Some item => _up_loop pos data item pos
  | None => data
  end.

(** [push(item) { this.data.push(item); this._up(this.length++); }] *)
Definition push (q : t) (item : QueuedValue) : t :=
  _up (q ++ [item]) (length q).

(** The loop of [_down(pos)]: the smaller child moves up while it compares
    smaller than [item].  [pos] strictly increases and stays below the
    length, so [length] steps of fuel are enough. *)
Fixpoint _down_loop (fuel : nat) (data : t) (item : QueuedValue) (pos : nat) : t :=
  match fuel with
  | O => <[pos := item]> data
  | S fuel' =>
      let halfLength := (length data / 2)%nat in
      if (pos <? halfLength)%nat then
        let left := (2 * pos + 1)%nat in
        let right := (left + 1)%nat in
        match data !! left with
        | None => <[pos := item]> data
        | Some l =>
            let bestChild :=
              match data !! right with
              | Some r => if compare r l <? 0 then right else left
              | None => left
              end in
            match data !! bestChild with
            | None => <[pos := item]> data
            | Some best =>
                if 0 <=? compare best item then <[pos := item]> data
                else _down_loop fuel' (<[pos := best]> data) item bestChild
            end
        end
      else <[pos := item]> data
  end.

Definition _down (data : t) (pos : nat) : t :=
  match data !! pos with
  | Some item => _down_loop (length data) data item pos
  | None => data
  end.

(** [pop()]: the answer ([undefined] on an empty queue) and the queue
    left behind. *)
Definition pop (q : t) : option QueuedValue * t :=
  match q !! 0%nat, last q with
  | Some top, Some bottom =>
      let data := removelast q in
      if (0 <? length data)%nat
      then (Some top, _down (<[0%nat := bottom]> data) 0)
      else (Some top, data)
  | _, _ => (None, q)
  end.

End TinyQueue.

(** ** The store and its environment *)

(** The calls the store makes to the callbacks given to its constructor
    ([this.onSet?.(key, value)] and the like), in the order they are made. *)
Inductive Callback : Type :=
  | OnSet (k : string) (v : JsValue)
  | OnDelete (k : string)
  | OnExpire (k : string) (v : JsValue)
  | OnClear.

#[global] Instance Callback_eq_dec : EqDecision Callback.
Proof. solve_decision. Defined.

(** [TIMEOUT_MAX] of Node's timers: [2 ** 31 - 1] ms. *)
Definition TIMEOUT_MAX : Z := 2147483647.

(** The time Node's [setTimeout] waits for a given delay: a delay below 1
    or above [TIMEOUT_MAX] is replaced by 1. *)
Definition timer_after (delay : Z) : Z :=
  if (1 <=? delay) && (delay <=? TIMEOUT_MAX) then delay else 1.

(** A pending [setTimeout] registration of [_scheduleNext]: the handle the
    call returned, the instant of the call, the delay it was given, and the
    [key] and [entry] its arrow function closes over. *)
Record Timeout : Type := mkTimeout {
  handle : nat;
  t_start : Z;
  t_delay : Z;
  t_key : string;
  t_entry : MapType
}.

(** The instant a registration becomes due; the event loop runs it then or
    later. *)
Definition due (t : Timeout) : Z := t_start t + timer_after (t_delay t).

(** The fields of a [TempBox] ([data], [timer], [queue]) and what it
    shares with its environment: the clock, the event loop's pending
    timeouts, the next fresh handle, the calls made to the callbacks. *)
Record World : Type := mkWorld {
  data : gmap string MapType;
  timer : option nat;
  queue : TinyQueue.t;
  now : Z;
  timeouts : list Timeout;
  next_handle : nat;
  calls : list Callback
}.

Definition set_data (f : gmap string MapType → gmap string MapType) (w : World) : World :=
  mkWorld (f (data w)) (timer w) (queue w) (now w) (timeouts w) (next_handle w) (calls w).
Definition set_timer (h : option nat) (w : World) : World :=
  mkWorld (data w) h (queue w) (now w) (timeouts w) (next_handle w) (calls w).
Definition set_queue (q : TinyQueue.t) (w : World) : World :=
  mkWorld (data w) (timer w) q (now w) (timeouts w) (next_handle w) (calls w).
Definition set_now (n : Z) (w : World) : World :=
  mkWorld (data w) (timer w) (queue w) n (timeouts w) (next_handle w) (calls w).
Definition set_timeouts (l : list Timeout) (w : World) : World :=
  mkWorld (data w) (timer w) (queue w) (now w) l (next_handle w) (calls w).
Definition call (c : Callback) (w : World) : World :=
  mkWorld (data w) (timer w) (queue w) (now w) (timeouts w) (next_handle w) (calls w ++ [c]).

(** [clearTimeout(h)]: the registration with that handle, if it is still
    pending, is dropped. *)
Definition clearTimeout (h : nat) (w : World) : World :=
  set_timeouts (filter (λ t, handle t ≠ h) (timeouts w)) w.

(** [setTimeout(() => ..., delay)]: a registration under a fresh handle,
    made now with the delay given; the handle is the answer. *)
Definition setTimeout (k : string) (entry : MapType) (delay : Z) (w : World) : nat * World :=
  let h := next_handle w in
  (h, mkWorld (data w) (timer w) (queue w) (now w)
        (timeouts w ++ [mkTimeout h (now w) delay k entry])
        (S h) (calls w)).

(** [new TempBox(params)] *)
Definition new (start : Z) : World :=
  mkWorld ∅ None TinyQueue.empty start [] 0%nat [].

Module TempBox.

(** [_expire(key, entry)] *)
Definition _expire (k : string) (entry : MapType) (w : World) : World :=
  call (OnExpire k (value entry)) (set_data (base.delete k) w).

(** The [while] loop of [_scheduleNext].  Each turn that continues pops one
    item, so [queue.length] turns of fuel are enough. *)
Fixpoint _scheduleNext_loop (fuel : nat) (w : World) : World :=
  match fuel with
  | O => w
  | S fuel' =>
      match TinyQueue.peek (queue w) with
      | None => w
      | Some item =>
          match data w !! qv_key item with
          | Some entry =>
              if decide (expiresAt entry = Some (qv_expiresAt item)) then
                let delay := Z.max 0 (qv_expiresAt item - now w) in
                let '(h, w') := setTimeout (qv_key item) entry delay w in
                set_timer (Some h) w'
              else
                _scheduleNext_loop fuel' (set_queue (TinyQueue.pop (queue w)).2 w)
          | None =>
              _scheduleNext_loop fuel' (set_queue (TinyQueue.pop (queue w)).2 w)
          end
      end
  end.

(** [_scheduleNext()] *)
Definition _scheduleNext (w : World) : World :=
  let w1 := match timer w with
            | Some h => clearTimeout h w
            | None => w
            end in
  _scheduleNext_loop (TinyQueue.length (queue w1)) w1.

(** [set(key, value, ttlMs?)] *)
Definition set (k : string) (v : JsValue) (ttlMs : option Z) (w : World) : World :=
  let expiresAt := if truthy ttlMs then (λ ttl, now w + ttl) <$> ttlMs else None in
  let w1 := set_data (<[k := mkEntry v expiresAt]>) w in
  let w2 := match expiresAt with
            | Some e =>
                if truthy expiresAt
                then _scheduleNext (set_queue (TinyQueue.push (queue w1) (mkQueued e k)) w1)
                else w1
            | None => w1
            end in
  call (OnSet k v) w2.

(** [get(key)] *)
Definition get (k : string) (w : World) : JsValue * World :=
  match data w !! k with
  | None => (JUndefined, w)
  | Some entry =>
      match expiresAt entry with
      | Some e =>
          if truthy (expiresAt entry) && (e <=? now w)
          then (JUndefined, _expire k entry w)
          else (value entry, w)
      | None => (value entry, w)
      end
  end.

(** [delete(key)] *)
Definition delete (k : string) (w : World) : bool * World :=
  match data w !! k with
  | Some _ => (true, call (OnDelete k) (set_data (base.delete k) w))
  | None => (false, w)
  end.

(** [has(key)] *)
Definition has (k : string) (w : World) : bool * World :=
  let '(v, w') := get k w in
  (bool_decide (v ≠ JUndefined), w').

(** [stop()] *)
Definition stop (w : World) : World :=
  let w1 := match timer w with
            | Some h => clearTimeout h w
            | None => w
            end in
  set_timer None w1.

(** The loop of [clear()]: [while (this.queue.length > 0) this.queue.pop()]. *)
Fixpoint clear_loop (fuel : nat) (q : TinyQueue.t) : TinyQueue.t :=
  match fuel with
  | O => q
  | S fuel' =>
      if (0 <? TinyQueue.length q)%nat
      then clear_loop fuel' (TinyQueue.pop q).2
      else q
  end.

(** [clear()] *)
Definition clear (w : World) : World :=
  let w1 := set_data (λ _, ∅) w in
  let w2 := stop w1 in
  let w3 := set_queue (clear_loop (TinyQueue.length (queue w2)) (queue w2)) w2 in
  call OnClear w3.

(** The arrow function [_scheduleNext] hands to [setTimeout], run by the
    event loop for the registration [t]. *)
Definition on_timeout (t : Timeout) (w : World) : World :=
  let w1 := set_queue (TinyQueue.pop (queue w)).2 w in
  let w2 := _expire (t_key t) (t_entry t) w1 in
  _scheduleNext w2.

End TempBox.

(** ** What can happen to a store

    The program is single threaded: between two events nothing happens.  An
    event is a call of a public method, the passing of time, or the event
    loop running the arrow function of a registration that is due. *)
Inductive Event : Type :=
  | CallSet (k : string) (v : JsValue) (ttlMs : option Z)
  | CallGet (k : string)
  | CallHas (k : string)
  | CallDelete (k : string)
  | CallClear
  | CallStop
  | Elapse (d : Z)
  | Fire (h : nat).

(** The event loop runs the registration [h]: it must be pending and due;
    it stops being pending, and its arrow function runs. *)
Definition fire (h : nat) (w : World) : option World :=
  match list_find (λ t, handle t = h) (timeouts w) with
  | Some (_, t) =>
      if due t <=? now w
      then Some (TempBox.on_timeout t
                   (set_timeouts (filter (λ t', handle t' ≠ h) (timeouts w)) w))
      else None
  | None => None
  end.

(** One event; [None] when the event cannot happen in [w]. *)
Definition step (e : Event) (w : World) : option World :=
  match e with
  | CallSet k v ttlMs => Some (TempBox.set k v ttlMs w)
  | CallGet k => Some (TempBox.get k w).2
  | CallHas k => Some (TempBox.has k w).2
  | CallDelete k => Some (TempBox.delete k w).2
  | CallClear => Some (TempBox.clear w)
  | CallStop => Some (TempBox.stop w)
  | Elapse d => if 0 <=? d then Some (set_now (now w + d) w) else None
  | Fire h => fire h w
  end.

Fixpoint run (es : list Event) (w : World) : option World :=
  match es with
  | [] => Some w
  | e :: es' =>
      match step e w with
      | Some w' => run es' w'
      | None => None
      end
  end.

(** The worlds a store can be in: those a freshly constructed store reaches
    by some sequence of events. *)
Definition reachable (w : World) : Prop :=
  ∃ start es, run es (new start) = Some w.

(** The arguments of the calls made to [onExpire], in order. *)
Definition expired (w : World) : list (string * JsValue) :=
  omap (λ c, match c with OnExpire k v => Some (k, v) | _ => None end) (calls w).

(** The scheduler holds no pending registration, or exactly one, and then
    [this.timer] is its handle. *)
Definition timer_inv (w : World) : Prop :=
  timeouts w = [] ∨ ∃ t, timeouts w = [t] ∧ timer w = Some (handle t).

(** ** Notions used in the statements *)

(** [_scheduleNext] is private and has two callers.  [set] calls it once
    the entry is written and the item pushed; the arrow function of a
    timeout calls it once the event loop has taken the registration, the
    item is popped and [_expire] has run. *)
Definition set_enters (k : string) (v : JsValue) (e : Z) (w : World) : World :=
  let w1 := set_data (<[k := mkEntry v (Some e)]>) w in
  set_queue (TinyQueue.push (queue w1) (mkQueued e k)) w1.

Definition timeout_enters (t : Timeout) (w : World) : World :=
  let w0 := set_timeouts (filter (λ t', handle t' ≠ handle t) (timeouts w)) w in
  TempBox._expire (t_key t) (t_entry t)
    (set_queue (TinyQueue.pop (queue w0)).2 w0).

(** The worlds [_scheduleNext] is called in. *)
Inductive scheduling : World → Prop :=
  | scheduling_set k v e w :
      reachable w → scheduling (set_enters k v e w)
  | scheduling_timeout t w :
      reachable w → t ∈ timeouts w → scheduling (timeout_enters t w).

(** A turn of the loop either registers nothing, or registers exactly one
    timeout, under the next fresh handle, for an item whose entry is in the
    table with the same [expiresAt]. *)
Definition registers (w w' : World) : Prop :=
  (timeouts w' = timeouts w ∧ timer w' = timer w ∧ next_handle w' = next_handle w)
  ∨ ∃ item entry,
      data w !! qv_key item = Some entry
      ∧ expiresAt entry = Some (qv_expiresAt item)
      ∧ TinyQueue.peek (queue w') = Some item
      ∧ timeouts w' = timeouts w ++
          [mkTimeout (next_handle w) (now w) (Z.max 0 (qv_expiresAt item - now w))
             (qv_key item) entry]
      ∧ timer w' = Some (next_handle w)
      ∧ next_handle w' = S (next_handle w).

(** The world [_scheduleNext] starts its loop in: the registration of
    [this.timer], if any, is cleared. *)
Definition cleared (w : World) : World :=
  match timer w with
  | Some h => clearTimeout h w
  | None => w
  end.

Definition busy_day : list Event :=
  [CallSet "a" (JStr "1") (Some 300); CallSet "b" (JStr "2") (Some 500);
   Elapse 300; Fire 1%nat; CallStop; CallSet "a" JNull (Some 5)].

Definition overdue_day : list Event :=
  [CallSet "a" (JStr "1") (Some 300); Elapse 400].

(** Only [set] puts an entry in the table for a key. *)
Definition sets_key (k : string) (e : Event) : bool :=
  match e with
  | CallSet k' _ _ => bool_decide (k' = k)
  | _ => false
  end.

(** An item of the queue is stale when the table has no entry for its key,
    or an entry with another [expiresAt] (or none). *)
Definition stale (tbl : gmap string MapType) (item : QueuedValue) : Prop :=
  match tbl !! qv_key item with
  | Some entry => expiresAt entry ≠ Some (qv_expiresAt item)
  | None => True
  end.

#[global] Instance stale_dec tbl item : Decision (stale tbl item).
Proof. unfold stale. destruct (tbl !! qv_key item); apply _. Defined.

(** The array is heap ordered: no item expires before the one at its
    parent index [(i - 1) >> 1]. *)
Definition heap_ordered (q : TinyQueue.t) : Prop :=
  ∀ (i : nat) x p, (0 < i)%nat → q !! i = Some x → q !! ((i - 1) / 2)%nat = Some p →
    qv_expiresAt p <= qv_expiresAt x.

(** [_up] and [_down] keep the item to place in a local and write it last;
    until then the array is heap ordered except around the index [pos] where
    the item belongs.  [up_ok]: every index but [pos] respects its parent,
    and the children of [pos] respect the parent of [pos]. *)
Definition up_ok (d : TinyQueue.t) (pos : nat) : Prop :=
  (∀ (i : nat) x p, (0 < i)%nat → i ≠ pos →
     d !! i = Some x → d !! ((i - 1) / 2)%nat = Some p →
     qv_expiresAt p <= qv_expiresAt x)
  ∧ (∀ (c : nat) x p, (0 < pos)%nat → (0 < c)%nat → ((c - 1) / 2)%nat = pos →
       d !! c = Some x → d !! ((pos - 1) / 2)%nat = Some p →
       qv_expiresAt p <= qv_expiresAt x).

(** [down_ok]: every index whose parent is not [pos] respects its parent,
    and the children of [pos] respect the parent of [pos]. *)
Definition down_ok (d : TinyQueue.t) (pos : nat) : Prop :=
  (∀ (i : nat) x p, (0 < i)%nat → ((i - 1) / 2)%nat ≠ pos →
     d !! i = Some x → d !! ((i - 1) / 2)%nat = Some p →
     qv_expiresAt p <= qv_expiresAt x)
  ∧ (∀ (c : nat) x p, (0 < pos)%nat → (0 < c)%nat → ((c - 1) / 2)%nat = pos →
       d !! c = Some x → d !! ((pos - 1) / 2)%nat = Some p →
       qv_expiresAt p <= qv_expiresAt x).

(** [item] is a minimum of the queue: it is in the queue and no item of the
    queue expires before it. *)
Definition minimum (q : list QueuedValue) (item : QueuedValue) : Prop :=
  item ∈ q ∧ ∀ x, x ∈ q → qv_expiresAt item <= qv_expiresAt x.

(** Reconcile as the specification words it, on the queue as a multiset:
    peek a minimum item; on an empty queue stay idle; a stale item is popped
    and dropped and the peek repeated; the first valid item is armed with
    delay [max(0, expiresAt - now)], stays in the queue, and reconciling
    stops.  [reconcile tbl clock q q' armed]: from the queue [q] reconcile
    ends with the queue [q'], and [armed] is the item armed, the entry
    found for it and the delay, or [None] when it ends idle. *)
Inductive reconcile (tbl : gmap string MapType) (clock : Z) :
    list QueuedValue → list QueuedValue → option (QueuedValue * MapType * Z) → Prop :=
  | reconcile_idle :
      reconcile tbl clock [] [] None
  | reconcile_stale q q1 q' item armed :
      minimum q item → stale tbl item → q ≡ₚ item :: q1 →
      reconcile tbl clock q1 q' armed →
      reconcile tbl clock q q' armed
  | reconcile_valid q item entry :
      minimum q item →
      tbl !! qv_key item = Some entry →
      expiresAt entry = Some (qv_expiresAt item) →
      reconcile tbl clock q q
        (Some (item, entry, Z.max 0 (qv_expiresAt item - clock))).

(** The registration a reconcile that ends armed asks the event loop for. *)
Definition registration (h : nat) (clock : Z)
    (armed : option (QueuedValue * MapType * Z)) : list Timeout :=
  match armed with
  | Some (item, entry, delay) => [mkTimeout h clock delay (qv_key item) entry]
  | None => []
  end.

Definition stale_day : list Event :=
  [CallSet "a" (JStr "1") (Some 300); CallSet "b" (JStr "2") (Some 500);
   CallSet "a" (JStr "3") None; CallStop].

(** The events that leave the key [k] alone and do not switch the scheduler
    off: time passing, a timeout firing, and calls of [set], [get], [has]
    and [delete] on other keys. *)
Definition quiet (k : string) (e : Event) : bool :=
  match e with
  | CallSet k' _ _ | CallGet k' | CallHas k' | CallDelete k' => bool_decide (k' ≠ k)
  | Elapse _ | Fire _ => true
  | CallClear | CallStop => false
  end.

(** The calls made to [onExpire] for the key [k], in order. *)
Definition expired_for (k : string) (w : World) : list (string * JsValue) :=
  filter (λ kv, kv.1 = k) (expired w).

(** The key [k] holds [v] until [E] and is scheduled: [onExpire] has been
    called for [k] as in [base] only, the item [(E, k)] is in the queue, and
    one timeout is pending, registered for the first item of the queue; if
    that item is the one of [k], the timeout closes over the entry of
    [k]. *)
Definition waiting (k : string) (v : JsValue) (E : Z)
    (base : list (string * JsValue)) (w : World) : Prop :=
  expired_for k w = base
  ∧ data w !! k = Some (mkEntry v (Some E))
  ∧ mkQueued E k ∈ queue w
  ∧ heap_ordered (queue w)
  ∧ ∃ t item,
      timeouts w = [t] ∧ timer w = Some (handle t)
      ∧ TinyQueue.peek (queue w) = Some item
      ∧ t_key t = qv_key item
      ∧ (t_key t = k → t_entry t = mkEntry v (Some E)).

(** The timeout of [k] has fired: one more call [onExpire(k, v)]; the key
    is gone and no pending timeout is for it. *)
Definition fired (k : string) (v : JsValue) (E : Z)
    (base : list (string * JsValue)) (w : World) : Prop :=
  expired_for k w = base ++ [(k, v)]
  ∧ data w !! k = None
  ∧ timer_inv w
  ∧ Forall (λ t, t_key t ≠ k) (timeouts w).

(** What is left until [E] fits a timer: [E] is at most [TIMEOUT_MAX]
    after now, and after the registration of every pending timeout. *)
Definition in_range (E : Z) (w : World) : Prop :=
  E - now w <= TIMEOUT_MAX
  ∧ Forall (λ t, E - t_start t <= TIMEOUT_MAX) (timeouts w).

(** The event loop, otherwise idle, runs the timeouts [hs] one
    millisecond apart. *)
Definition one_by_one (hs : list nat) : list Event :=
  flat_map (λ h, [Elapse 1; Fire h]) hs.

(** ** Notions used in the further properties *)

(** The events that neither write nor remove the entry of [k] by a call:
    everything but [set(k, ...)], [delete(k)] and [clear()]. *)
Definition keeps (k : string) (e : Event) : bool :=
  match e with
  | CallSet k' _ _ | CallDelete k' => bool_decide (k' ≠ k)
  | CallClear => false
  | _ => true
  end.

(** A call of [set] with a truthy TTL. *)
Definition ttl_set (e : Event) : bool :=
  match e with
  | CallSet _ _ ttlMs => truthy ttlMs
  | _ => false
  end.

(** How many calls of [set] with a truthy TTL a sequence of events holds. *)
Definition ttl_sets (es : list Event) : nat :=
  length (filter (λ e, ttl_set e = true) es).

(** The events that give [k] no TTL: every event but a [set] of [k] with a
    truthy TTL. *)
Definition never_ttl (k : string) (e : Event) : bool :=
  match e with
  | CallSet k' _ ttlMs => bool_decide (k' ≠ k) || negb (truthy ttlMs)
  | _ => true
  end.

(** Every pending timeout is registered for the first item of the queue:
    it closes over that item's key and over an entry that expires when the
    item says; it was registered now or earlier, with the time left until
    then as its delay. *)
Definition armed_head (w : World) : Prop :=
  ∀ t, t ∈ timeouts w →
    ∃ item, TinyQueue.peek (queue w) = Some item
            ∧ t_key t = qv_key item
            ∧ expiresAt (t_entry t) = Some (qv_expiresAt item)
            ∧ t_delay t = Z.max 0 (qv_expiresAt item - t_start t)
            ∧ t_start t <= now w.

(** No pending timeout for [k] is due before [E]. *)
Definition due_after (k : string) (E : Z) (w : World) : Prop :=
  Forall (λ t, t_key t = k → E <= due t) (timeouts w).

(** Nothing is scheduled for [k]: no item of the queue and no pending
    timeout is for it. *)
Definition unscheduled (k : string) (w : World) : Prop :=
  Forall (λ x, qv_key x ≠ k) (queue w) ∧ Forall (λ t, t_key t ≠ k) (timeouts w).

Definition quiet_day : list Event :=
  [CallSet "a" (JStr "1") (Some 300); CallSet "b" (JStr "2") None;
   Elapse 100; CallDelete "b"].

(** Since the world [w0], [onExpire] has been called for neither of [a]
    and [b], or for [a] only, or for both, each once and with its value:
    never for [b] while not yet for [a]. *)
Definition in_order (a b : string) (va vb : JsValue) (w0 w : World) : Prop :=
  (expired_for a w = expired_for a w0 ∧ expired_for b w = expired_for b w0)
  ∨ (expired_for a w = expired_for a w0 ++ [(a, va)]
     ∧ expired_for b w = expired_for b w0)
  ∨ (expired_for a w = expired_for a w0 ++ [(a, va)]
     ∧ expired_for b w = expired_for b w0 ++ [(b, vb)]).

(** * Properties *)

(** ** What [_scheduleNext] leaves alone, and what it registers *)

Lemma scheduleNext_loop_frame fuel w :
  let w' := TempBox._scheduleNext_loop fuel w in
  data w' = data w ∧ now w' = now w ∧ calls w' = calls w ∧ registers w w'.
Proof.
  revert w. induction fuel as [|fuel IH]; intros w; cbn zeta.
  { repeat split; try reflexivity. left. done. }
  cbn [TempBox._scheduleNext_loop].
  destruct (TinyQueue.peek (queue w)) as [item|] eqn:Hpeek.
  2:{ repeat split; try reflexivity. left. done. }
  destruct (data w !! qv_key item) as [entry|] eqn:Hentry.
  - destruct (decide (expiresAt entry = Some (qv_expiresAt item))) as [Heq|Hne].
    + cbn. repeat split; try reflexivity.
      right. exists item, entry. cbn. done.
    + specialize (IH (set_queue (TinyQueue.pop (queue w)).2 w)).
      cbn zeta in IH. destruct IH as (? & ? & ? & ?). done.
  - specialize (IH (set_queue (TinyQueue.pop (queue w)).2 w)).
    cbn zeta in IH. destruct IH as (? & ? & ? & ?). done.
Qed.

Lemma cleared_frame w :
  data (cleared w) = data w ∧ now (cleared w) = now w
  ∧ calls (cleared w) = calls w ∧ queue (cleared w) = queue w
  ∧ timer (cleared w) = timer w
  ∧ next_handle (cleared w) = next_handle w.
Proof. unfold cleared. destruct (timer w) eqn:E; cbn; rewrite ?E; done. Qed.

Lemma cleared_timeouts w : timer_inv w → timeouts (cleared w) = [].
Proof.
  unfold cleared. intros [Hnil | (t & Ht & Htimer)].
  - destruct (timer w); [|done]. cbn. by rewrite Hnil.
  - rewrite Htimer. cbn. rewrite Ht. cbn.
    rewrite decide_False; [done|]. intros Hne. by apply Hne.
Qed.

Lemma scheduleNext_unfold w :
  TempBox._scheduleNext w
  = TempBox._scheduleNext_loop (TinyQueue.length (queue (cleared w))) (cleared w).
Proof. unfold TempBox._scheduleNext, cleared. by destruct (timer w). Qed.

Lemma scheduleNext_frame w :
  let w' := TempBox._scheduleNext w in
  data w' = data w ∧ now w' = now w ∧ calls w' = calls w.
Proof.
  cbn zeta. rewrite scheduleNext_unfold.
  destruct (scheduleNext_loop_frame (TinyQueue.length (queue (cleared w))) (cleared w))
    as (Hd & Hn & Hc & _).
  destruct (cleared_frame w) as (Hd' & Hn' & Hc' & _).
  rewrite Hd, Hn, Hc. done.
Qed.

Lemma registers_timer_inv w w' :
  timeouts w = [] → registers w w' → timer_inv w'.
Proof.
  intros Hnil [(Ht & _) | (item & entry & _ & _ & _ & Ht & Htimer & _)].
  - left. congruence.
  - right. eexists. rewrite Ht, Hnil. split; [reflexivity|]. by rewrite Htimer.
Qed.

Lemma scheduleNext_timer_inv w :
  timer_inv w → timer_inv (TempBox._scheduleNext w).
Proof.
  intros Hinv. rewrite scheduleNext_unfold.
  eapply registers_timer_inv; [by apply cleared_timeouts|].
  apply scheduleNext_loop_frame.
Qed.

(** ** At most one pending timeout *)

Lemma timer_inv_ext w w' :
  timeouts w' = timeouts w → timer w' = timer w → timer_inv w → timer_inv w'.
Proof. unfold timer_inv. intros -> ->. done. Qed.

Lemma set_timer_inv k v ttlMs w : timer_inv w → timer_inv (TempBox.set k v ttlMs w).
Proof.
  intros Hinv. unfold TempBox.set.
  eapply timer_inv_ext; [reflexivity | reflexivity |].
  destruct (if truthy ttlMs then _ else _) as [e|]; [|done].
  destruct (truthy (Some e)); [|done].
  by apply scheduleNext_timer_inv.
Qed.

Lemma get_frame k w :
  let w' := (TempBox.get k w).2 in
  timeouts w' = timeouts w ∧ timer w' = timer w ∧ queue w' = queue w
  ∧ now w' = now w ∧ next_handle w' = next_handle w.
Proof.
  cbn zeta. unfold TempBox.get.
  destruct (data w !! k) as [entry|]; [|done].
  destruct (expiresAt entry) as [e|]; [|done].
  destruct (truthy (Some e) && (e <=? now w)); done.
Qed.

Lemma has_world k w : (TempBox.has k w).2 = (TempBox.get k w).2.
Proof. unfold TempBox.has. by destruct (TempBox.get k w). Qed.

Lemma has_answer k w :
  (TempBox.has k w).1 = bool_decide ((TempBox.get k w).1 ≠ JUndefined).
Proof. unfold TempBox.has. by destruct (TempBox.get k w). Qed.

Lemma delete_frame k w :
  let w' := (TempBox.delete k w).2 in
  timeouts w' = timeouts w ∧ timer w' = timer w ∧ queue w' = queue w
  ∧ now w' = now w ∧ next_handle w' = next_handle w.
Proof. cbn zeta. unfold TempBox.delete. destruct (data w !! k); done. Qed.

Lemma stop_timeouts w : timer_inv w → timeouts (TempBox.stop w) = [].
Proof. intros Hinv. unfold TempBox.stop. by apply cleared_timeouts. Qed.

Lemma fire_timer_inv h w w' : timer_inv w → fire h w = Some w' → timer_inv w'.
Proof.
  intros Hinv. unfold fire.
  destruct (list_find _ (timeouts w)) as [[i t]|] eqn:Hfind; [|done].
  destruct (due t <=? now w); [|done]. intros [= <-].
  apply list_find_Some in Hfind as (Hi & Hh & _).
  unfold TempBox.on_timeout. apply scheduleNext_timer_inv. left. cbn.
  destruct Hinv as [Hnil | (t' & Ht' & _)].
  - by rewrite Hnil in Hi.
  - rewrite Ht' in Hi |- *. destruct i; [|done]. injection Hi as ->.
    cbn. rewrite decide_False; [done|]. intros Hne. by apply Hne.
Qed.

Lemma step_timer_inv e w w' : timer_inv w → step e w = Some w' → timer_inv w'.
Proof.
  intros Hinv. destruct e; cbn [step].
  - intros [= <-]. by apply set_timer_inv.
  - intros [= <-]. destruct (get_frame k w) as (Ht & Hh & _).
    by eapply timer_inv_ext.
  - intros [= <-]. rewrite has_world. destruct (get_frame k w) as (Ht & Hh & _).
    by eapply timer_inv_ext.
  - intros [= <-]. destruct (delete_frame k w) as (Ht & Hh & _).
    by eapply timer_inv_ext.
  - intros [= <-]. left. unfold TempBox.clear. cbn.
    by apply (stop_timeouts (set_data (λ _, ∅) w)).
  - intros [= <-]. left. by apply stop_timeouts.
  - destruct (0 <=? d); [|done]. intros [= <-]. done.
  - by apply fire_timer_inv.
Qed.

Lemma run_timer_inv es w w' : timer_inv w → run es w = Some w' → timer_inv w'.
Proof.
  revert w. induction es as [|e es IH]; intros w Hinv; cbn [run].
  - by intros [= <-].
  - destruct (step e w) as [w1|] eqn:Hstep; [|done].
    apply IH. by eapply step_timer_inv.
Qed.

Lemma reachable_timer_inv w : reachable w → timer_inv w.
Proof.
  intros (start & es & Hrun). eapply run_timer_inv; [|exact Hrun]. by left.
Qed.

(** C9. Whatever sequence of calls ([set], [get], [has], [delete], [clear],
    [stop]), passing of time and firing of timeouts a freshly constructed
    store goes through, the event loop holds at most one pending timeout of
    the store afterwards, never two. *)
Theorem at_most_one_timeout start es w :
  run es (new start) = Some w → (length (timeouts w) ≤ 1)%nat.
Proof.
  intros Hrun.
  destruct (reachable_timer_inv w) as [-> | (t & -> & _)]; [by exists start, es | |];
    cbn; lia.
Qed.

Lemma at_most_one_timeout_witness :
  ∃ w, run busy_day (new 0) = Some w ∧ (length (timeouts w) ≤ 1)%nat.
Proof.
  eexists. split.
  - vm_compute. reflexivity.
  - apply (at_most_one_timeout 0 busy_day). vm_compute. reflexivity.
Defined.

(** ** The public methods, one call at a time *)

(** C10. A stored [undefined] cannot be told from a missing key: after
    [set(k, undefined)] without a TTL the entry is in the table and carries
    no expiry, yet at any later instant [get(k)] answers [undefined] and
    [has(k)] answers [false], and neither call changes anything. *)
Theorem undefined_value_looks_absent (k : string) (w : World) (later : Z) :
  let w1 := set_now later (TempBox.set k JUndefined None w) in
  data w1 !! k = Some (mkEntry JUndefined None)
  ∧ TempBox.get k w1 = (JUndefined, w1)
  ∧ TempBox.has k w1 = (false, w1).
Proof.
  cbn zeta.
  assert (data (set_now later (TempBox.set k JUndefined None w)) !! k
          = Some (mkEntry JUndefined None)) as Hentry.
  { cbn. apply lookup_insert_eq. }
  split; [exact Hentry|].
  assert (TempBox.get k (set_now later (TempBox.set k JUndefined None w))
          = (JUndefined, set_now later (TempBox.set k JUndefined None w))) as Hget.
  { unfold TempBox.get. rewrite Hentry. reflexivity. }
  split; [exact Hget|].
  unfold TempBox.has. rewrite Hget. reflexivity.
Qed.

(** C8. [delete(k)] answers [true] exactly when the table had an entry for
    [k]; afterwards the table is the old one without [k]; [onDelete] is
    called once when the answer is [true] and no callback is called when it
    is [false]; [onExpire] is not called by [delete], and the queue, the
    timer and the pending timeouts are as before.  None of this looks at
    the entry's [expiresAt], so it holds as well for an entry whose TTL has
    passed and that no [get] has purged yet. *)
Theorem delete_reports_presence (k : string) (w : World) :
  let answer := (TempBox.delete k w).1 in
  let w' := (TempBox.delete k w).2 in
  answer = bool_decide (is_Some (data w !! k))
  ∧ data w' = base.delete k (data w)
  ∧ calls w' = calls w ++ (if answer then [OnDelete k] else [])
  ∧ expired w' = expired w
  ∧ queue w' = queue w ∧ timer w' = timer w ∧ timeouts w' = timeouts w
  ∧ (∀ entry e, data w !! k = Some entry → expiresAt entry = Some e → e <= now w →
       answer = true ∧ data w' !! k = None ∧ calls w' = calls w ++ [OnDelete k]).
Proof.
  cbn zeta. unfold TempBox.delete.
  destruct (data w !! k) as [entry|] eqn:Hentry; cbn.
  - repeat split; try done.
    + unfold expired. rewrite omap_app. cbn. by rewrite app_nil_r.
    + apply lookup_delete_eq.
  - repeat split; try done.
    + symmetry. by apply delete_id.
    + by rewrite app_nil_r.
Qed.

(** C7. In any world a store can be in, [stop()] leaves no timeout pending
    and changes neither the table nor the queue (nor the clock, nor the
    calls made so far); and a later [get] of a key whose non-zero
    [expiresAt] has passed still answers [undefined], removes the entry and
    calls [onExpire] for it. *)
Theorem stop_only_cancels (w : World) :
  reachable w →
  let w' := TempBox.stop w in
  timeouts w' = [] ∧ timer w' = None
  ∧ data w' = data w ∧ queue w' = queue w ∧ now w' = now w ∧ calls w' = calls w
  ∧ (∀ k entry e, data w !! k = Some entry → expiresAt entry = Some e →
       e ≠ 0 → e <= now w →
       (TempBox.get k w').1 = JUndefined
       ∧ data (TempBox.get k w').2 = base.delete k (data w)
       ∧ calls (TempBox.get k w').2 = calls w ++ [OnExpire k (value entry)]).
Proof.
  intros Hreach. cbn zeta.
  split; [apply stop_timeouts; by apply reachable_timer_inv|].
  split; [done|].
  destruct (cleared_frame w) as (Hd & Hn & Hc & Hq & _).
  unfold TempBox.stop. fold (cleared w). cbn.
  split; [done|]. split; [done|]. split; [done|]. split; [done|].
  intros k entry e Hentry He Hnz Hle.
  unfold TempBox.get. cbn. rewrite Hd, Hentry, He, Hn. cbn.
  assert (negb (e =? 0) = true) as -> by (apply negb_true_iff; lia).
  assert ((e <=? now w) = true) as -> by lia.
  cbn. by rewrite Hd, Hc.
Qed.

Lemma stop_only_cancels_witness :
  ∃ w, run overdue_day (new 0) = Some w
       ∧ timeouts w ≠ [] ∧ timeouts (TempBox.stop w) = [].
Proof.
  eexists. split; [vm_compute; reflexivity|]. split; [done|].
  refine (proj1 (stop_only_cancels _ _)).
  exists 0, overdue_day. vm_compute. reflexivity.
Defined.

(** ** Expiry of a key after its TTL *)

Lemma set_lookup k v ttlMs w :
  data (TempBox.set k v ttlMs w) !! k
  = Some (mkEntry v (if truthy ttlMs then (λ ttl, now w + ttl) <$> ttlMs else None)).
Proof.
  unfold TempBox.set. cbn.
  destruct (if truthy ttlMs then _ else _) as [e|]; cbn.
  - destruct (negb (e =? 0)); cbn.
    + destruct (scheduleNext_frame
        (set_queue (TinyQueue.push (queue w) (mkQueued e k))
           (set_data <[k:=mkEntry v (Some e)]> w))) as (-> & _).
      cbn. apply lookup_insert_eq.
    + apply lookup_insert_eq.
  - apply lookup_insert_eq.
Qed.

Lemma set_lookup_ne k k' v ttlMs w :
  k' ≠ k → data (TempBox.set k' v ttlMs w) !! k = data w !! k.
Proof.
  intros Hne. unfold TempBox.set. cbn.
  destruct (if truthy ttlMs then _ else _) as [e|]; cbn.
  - destruct (negb (e =? 0)); cbn.
    + destruct (scheduleNext_frame
        (set_queue (TinyQueue.push (queue w) (mkQueued e k'))
           (set_data <[k':=mkEntry v (Some e)]> w))) as (-> & _).
      cbn. by apply lookup_insert_ne.
    + by apply lookup_insert_ne.
  - by apply lookup_insert_ne.
Qed.

Lemma lookup_delete_cases (m : gmap string MapType) (k k' : string) :
  base.delete k' m !! k = None ∨ base.delete k' m !! k = m !! k.
Proof.
  destruct (decide (k' = k)) as [->|Hne].
  - left. apply lookup_delete_eq.
  - right. by apply lookup_delete_ne.
Qed.

Lemma get_lookup k k' w :
  data (TempBox.get k' w).2 !! k = None ∨ data (TempBox.get k' w).2 !! k = data w !! k.
Proof.
  unfold TempBox.get.
  destruct (data w !! k') as [entry|]; [|by right].
  destruct (expiresAt entry) as [e|]; [|by right].
  destruct (truthy (Some e) && (e <=? now w)); [|by right].
  apply lookup_delete_cases.
Qed.

Lemma on_timeout_frame t w :
  let w' := TempBox.on_timeout t w in
  data w' = base.delete (t_key t) (data w) ∧ now w' = now w
  ∧ calls w' = calls w ++ [OnExpire (t_key t) (value (t_entry t))].
Proof.
  cbn zeta. unfold TempBox.on_timeout. cbn zeta.
  match goal with |- context [TempBox._scheduleNext ?x] =>
    destruct (scheduleNext_frame x) as (-> & -> & ->) end.
  done.
Qed.

Lemma fire_lookup h k w w' :
  fire h w = Some w' → data w' !! k = None ∨ data w' !! k = data w !! k.
Proof.
  unfold fire.
  destruct (list_find _ (timeouts w)) as [[i t]|]; [|done].
  destruct (due t <=? now w); [|done]. intros [= <-].
  match goal with |- context [TempBox.on_timeout ?t ?x] =>
    destruct (on_timeout_frame t x) as (-> & _) end.
  cbn. apply lookup_delete_cases.
Qed.

Lemma stop_frame w :
  let w' := TempBox.stop w in
  data w' = data w ∧ queue w' = queue w ∧ now w' = now w ∧ calls w' = calls w
  ∧ next_handle w' = next_handle w ∧ timer w' = None.
Proof.
  cbn zeta. unfold TempBox.stop. fold (cleared w). cbn.
  destruct (cleared_frame w) as (-> & -> & -> & -> & _ & ->). done.
Qed.

Lemma clear_data w : data (TempBox.clear w) = ∅.
Proof.
  unfold TempBox.clear. cbn -[TempBox.stop].
  by destruct (stop_frame (set_data (λ _, ∅) w)) as (-> & _).
Qed.

(** An event other than a [set] of [k] removes the entry of [k] or leaves
    it as it is. *)
Lemma step_only_removes k e w w' :
  sets_key k e = false → step e w = Some w' →
  data w' !! k = None ∨ data w' !! k = data w !! k.
Proof.
  intros Hk. destruct e; cbn [step].
  - intros [= <-]. right. apply set_lookup_ne.
    cbn in Hk. by apply bool_decide_eq_false in Hk.
  - intros [= <-]. apply get_lookup.
  - intros [= <-]. rewrite has_world. apply get_lookup.
  - intros [= <-]. unfold TempBox.delete.
    destruct (data w !! k0); [|by right]. apply lookup_delete_cases.
  - intros [= <-]. left. rewrite clear_data. apply lookup_empty.
  - intros [= <-]. right. by destruct (stop_frame w) as (-> & _).
  - destruct (0 <=? d); [|done]. intros [= <-]. by right.
  - apply fire_lookup.
Qed.

Lemma run_only_removes k es w w' :
  Forall (λ e, sets_key k e = false) es → run es w = Some w' →
  data w' !! k = None ∨ data w' !! k = data w !! k.
Proof.
  intros Hes. revert w. induction Hes as [|e es He Hes IH]; intros w; cbn [run].
  - intros [= <-]. by right.
  - destruct (step e w) as [w1|] eqn:Hstep; [|done]. intros Hrun.
    destruct (IH _ Hrun) as [Hnone | Hsame]; [by left|].
    rewrite Hsame. by eapply step_only_removes.
Qed.

(** [get] of a key that is missing, or whose non-zero [expiresAt] has
    passed, answers [undefined] and leaves the key missing. *)
Lemma get_missing_or_overdue k v e w :
  data w !! k = None ∨ data w !! k = Some (mkEntry v (Some e)) →
  e ≠ 0 → e <= now w →
  (TempBox.get k w).1 = JUndefined ∧ data (TempBox.get k w).2 !! k = None.
Proof.
  intros [Hnone | Hsome] Hnz Hle; unfold TempBox.get.
  - by rewrite Hnone.
  - rewrite Hsome. cbn.
    assert (negb (e =? 0) = true) as -> by (apply negb_true_iff; lia).
    assert ((e <=? now w) = true) as -> by lia.
    cbn. split; [done|]. apply lookup_delete_eq.
Qed.

(** C4, as the code has it.  Let [set(k, v, ttl)] be called with a TTL that
    is not zero (and does not cancel the clock: [now + ttl] is not zero),
    and let anything happen afterwards except another [set] of [k]: calls
    on any key, time passing, timeouts firing or not.  At any instant at or
    after [now + ttl], [get(k)] answers [undefined], and [has(k)] answers
    [false], both right away and after that [get]. *)
Theorem expired_key_is_gone (k : string) (v : JsValue) (ttl : Z) (w0 w : World)
    (es : list Event) :
  ttl ≠ 0 → now w0 + ttl ≠ 0 →
  Forall (λ e, sets_key k e = false) es →
  run es (TempBox.set k v (Some ttl) w0) = Some w →
  now w0 + ttl <= now w →
  (TempBox.get k w).1 = JUndefined
  ∧ (TempBox.has k w).1 = false
  ∧ (TempBox.has k (TempBox.get k w).2).1 = false.
Proof.
  intros Httl Hnz Hes Hrun Hlate.
  assert (data w !! k = None
          ∨ data w !! k = Some (mkEntry v (Some (now w0 + ttl)))) as Hk.
  { destruct (run_only_removes k _ _ _ Hes Hrun) as [?|Hsame]; [by left|].
    right. rewrite Hsame, set_lookup. cbn.
    assert (negb (ttl =? 0) = true) as -> by (apply negb_true_iff; lia). done. }
  destruct (get_missing_or_overdue k v _ w Hk Hnz Hlate) as (Hget & Hgone).
  split; [exact Hget|]. split.
  - rewrite has_answer, Hget. done.
  - rewrite has_answer.
    destruct (get_missing_or_overdue k v (now w0 + ttl) (TempBox.get k w).2)
      as (-> & _); [by left | done | | done].
    destruct (get_frame k w) as (_ & _ & _ & -> & _). done.
Qed.

Lemma expired_key_is_gone_witness :
  ∃ w, run [Elapse 100; CallGet "b"] (TempBox.set "a" (JStr "1") (Some 100) (new 7))
       = Some w
       ∧ (TempBox.get "a" w).1 = JUndefined.
Proof.
  eexists. split; [vm_compute; reflexivity|].
  refine (proj1 (expired_key_is_gone "a" (JStr "1") 100 (new 7) _
                   [Elapse 100; CallGet "b"] _ _ _ _ _)).
  - done.
  - done.
  - repeat constructor.
  - vm_compute. reflexivity.
  - vm_compute. discriminate.
Defined.

(** C4 fails as stated: a TTL of [0] is falsy, so [set(k, v, 0)] stores the
    entry without expiry, and [get] and [has] still find it 1000 ms later. *)
Lemma zero_ttl_never_expires :
  let w := set_now 1000 (TempBox.set "k" (JStr "v") (Some 0) (new 0)) in
  0 + 0 <= now w
  ∧ (TempBox.get "k" w).1 = JStr "v"
  ∧ (TempBox.has "k" (TempBox.get "k" w).2).1 = true.
Proof. vm_compute. repeat split; discriminate. Qed.

(** ** One turn of the loop of [_scheduleNext] *)

Lemma scheduleNext_loop_arm fuel w item entry :
  TinyQueue.peek (queue w) = Some item →
  data w !! qv_key item = Some entry →
  expiresAt entry = Some (qv_expiresAt item) →
  TempBox._scheduleNext_loop (S fuel) w
  = set_timer (Some (next_handle w))
      (setTimeout (qv_key item) entry (Z.max 0 (qv_expiresAt item - now w)) w).2.
Proof.
  intros Hpeek Hentry Heq. cbn [TempBox._scheduleNext_loop].
  rewrite Hpeek, Hentry. rewrite decide_True by done. reflexivity.
Qed.

Lemma scheduleNext_loop_stale fuel w item :
  TinyQueue.peek (queue w) = Some item →
  stale (data w) item →
  TempBox._scheduleNext_loop (S fuel) w
  = TempBox._scheduleNext_loop fuel (set_queue (TinyQueue.pop (queue w)).2 w).
Proof.
  intros Hpeek Hstale. cbn [TempBox._scheduleNext_loop].
  rewrite Hpeek. unfold stale in Hstale.
  destruct (data w !! qv_key item) as [entry|]; [|done].
  by rewrite decide_False.
Qed.

Lemma scheduleNext_loop_empty fuel w :
  queue w = [] → TempBox._scheduleNext_loop fuel w = w.
Proof. intros Hq. destruct fuel; [done|]. cbn. by rewrite Hq. Qed.

Lemma set_with_ttl k v ttl w :
  ttl ≠ 0 → now w + ttl ≠ 0 →
  TempBox.set k v (Some ttl) w
  = call (OnSet k v)
      (TempBox._scheduleNext
         (set_queue (TinyQueue.push (queue w) (mkQueued (now w + ttl) k))
            (set_data <[k := mkEntry v (Some (now w + ttl))]> w))).
Proof.
  intros Httl Hnz. unfold TempBox.set. cbn [truthy fmap option_fmap option_map].
  assert (negb (ttl =? 0) = true) as -> by (apply negb_true_iff; lia).
  cbn [truthy fmap option_fmap option_map].
  assert (negb (now w + ttl =? 0) = true) as -> by (apply negb_true_iff; lia).
  reflexivity.
Qed.

(** ** The binary heap of [TinyQueue] *)

Ltac Zify.zify_post_hook ::= Z.to_euclidean_division_equations.

Lemma up_loop_hole fuel (d : TinyQueue.t) item pos :
  TinyQueue._up_loop fuel d item pos
  = TinyQueue._up_loop fuel (<[pos := item]> d) item pos.
Proof.
  destruct fuel as [|fuel]; cbn [TinyQueue._up_loop].
  { by rewrite list_insert_insert_eq. }
  destruct (pos =? 0)%nat eqn:Hpos.
  { by rewrite list_insert_insert_eq. }
  apply Nat.eqb_neq in Hpos.
  rewrite list_lookup_insert_ne by lia.
  destruct (d !! ((pos - 1) / 2)%nat) as [current|];
    rewrite !list_insert_insert_eq; reflexivity.
Qed.

Lemma down_loop_hole fuel (d : TinyQueue.t) item pos :
  TinyQueue._down_loop fuel d item pos
  = TinyQueue._down_loop fuel (<[pos := item]> d) item pos.
Proof.
  destruct fuel as [|fuel]; cbn [TinyQueue._down_loop].
  { by rewrite list_insert_insert_eq. }
  unfold TinyQueue.length. rewrite length_insert.
  destruct (pos <? length d / 2)%nat; [|by rewrite list_insert_insert_eq].
  rewrite !(list_lookup_insert_ne _ pos) by lia.
  destruct (d !! (2 * pos + 1)%nat) as [l|]; [|by rewrite list_insert_insert_eq].
  set (best := match d !! (2 * pos + 1 + 1)%nat with
               | Some r => if TinyQueue.compare r l <? 0
                           then (2 * pos + 1 + 1)%nat else (2 * pos + 1)%nat
               | None => (2 * pos + 1)%nat
               end).
  assert (pos ≠ best) as Hne.
  { subst best. destruct (d !! (2 * pos + 1 + 1)%nat); [|lia].
    destruct (TinyQueue.compare _ _ <? 0); lia. }
  rewrite (list_lookup_insert_ne _ pos best) by done.
  destruct (d !! best) as [b|]; rewrite !list_insert_insert_eq; reflexivity.
Qed.

Ltac split_lookup H :=
  apply list_lookup_insert_Some in H as [(? & ? & ?) | (? & H)].

Lemma up_loop_spec fuel : ∀ (d : TinyQueue.t) item pos,
  (pos ≤ fuel)%nat → d !! pos = Some item → up_ok d pos →
  heap_ordered (TinyQueue._up_loop fuel d item pos)
  ∧ TinyQueue._up_loop fuel d item pos ≡ₚ d.
Proof.
  assert (∀ (d : TinyQueue.t) item pos, d !! pos = Some item → up_ok d pos →
            (pos = 0%nat ∨ ∃ p, d !! ((pos - 1) / 2)%nat = Some p
                                ∧ qv_expiresAt p <= qv_expiresAt item) →
            heap_ordered (<[pos := item]> d) ∧ <[pos := item]> d ≡ₚ d) as Hdone.
  { intros d item pos Hitem (Hup & _) Hroot.
    rewrite list_insert_id by done. split; [|done].
    intros i x p Hi Hx Hp. destruct (decide (i = pos)) as [->|Hne].
    - destruct Hroot as [->|(p' & Hp' & Hle)]; [lia|]. congruence.
    - by eapply Hup. }
  induction fuel as [|fuel IH]; intros d item pos Hfuel Hitem Hok;
    cbn [TinyQueue._up_loop].
  { apply Hdone; [done | done | left; lia]. }
  destruct (pos =? 0)%nat eqn:Hpos.
  { apply Nat.eqb_eq in Hpos. apply Hdone; [done | done | by left]. }
  apply Nat.eqb_neq in Hpos.
  pose proof (lookup_lt_Some _ _ _ Hitem) as Hlen.
  destruct (lookup_lt_is_Some_2 d ((pos - 1) / 2)%nat) as [current Hcur]; [lia|].
  rewrite Hcur. unfold TinyQueue.compare.
  destruct (0 <=? qv_expiresAt item - qv_expiresAt current) eqn:Hcmp.
  { apply Hdone; [done | done |]. right. exists current. split; [done|lia]. }
  rewrite up_loop_hole.
  set (d' := <[((pos - 1) / 2)%nat := item]> (<[pos := current]> d)).
  assert (d' ≡ₚ d) as Hperm by (by apply Permutation_insert_swap).
  destruct (IH d' item ((pos - 1) / 2)%nat) as (Hheap & Hperm'); [lia | | |].
  - subst d'. apply list_lookup_insert_eq. rewrite length_insert. lia.
  - destruct Hok as (Hup & Hgrand). subst d'. split.
    + intros i x p Hi Hne Hx Hp.
      split_lookup Hx; [lia|]. split_lookup Hp.
      * subst. split_lookup Hx.
        -- subst. lia.
        -- assert (qv_expiresAt current <= qv_expiresAt x); [|lia].
           eapply (Hup i); [lia | lia | done |]. congruence.
      * split_lookup Hp.
        -- split_lookup Hx; [lia|]. subst p.
           eapply (Hgrand i); [lia | lia | lia | done | done].
        -- split_lookup Hx; [lia|].
           eapply (Hup i); [lia | lia | done | done].
    + intros c x p Hpp Hc Hpar Hx Hp.
      split_lookup Hp; [lia|]. split_lookup Hp; [lia|].
      assert (qv_expiresAt p <= qv_expiresAt current) as Hpc.
      { eapply (Hup ((pos - 1) / 2)%nat); [lia | lia | done | done]. }
      split_lookup Hx; [lia|]. split_lookup Hx; [subst; lia|].
      assert (qv_expiresAt current <= qv_expiresAt x); [|lia].
      eapply (Hup c); [lia | lia | done |]. congruence.
  - split; [done|]. by etrans.
Qed.

Lemma down_loop_spec fuel : ∀ (d : TinyQueue.t) item pos,
  (length d ≤ fuel + pos)%nat → d !! pos = Some item → down_ok d pos →
  heap_ordered (TinyQueue._down_loop fuel d item pos)
  ∧ TinyQueue._down_loop fuel d item pos ≡ₚ d.
Proof.
  assert (∀ (d : TinyQueue.t) item pos, d !! pos = Some item → down_ok d pos →
            (∀ (c : nat) x, (0 < c)%nat → ((c - 1) / 2)%nat = pos → d !! c = Some x →
               qv_expiresAt item <= qv_expiresAt x) →
            heap_ordered (<[pos := item]> d) ∧ <[pos := item]> d ≡ₚ d) as Hdone.
  { intros d item pos Hitem (Hdown & _) Hchildren.
    rewrite list_insert_id by done. split; [|done].
    intros i x p Hi Hx Hp. destruct (decide (((i - 1) / 2)%nat = pos)) as [Heq|Hne].
    - rewrite Heq, Hitem in Hp. injection Hp as <-. by eapply Hchildren.
    - by eapply Hdown. }
  induction fuel as [|fuel IH]; intros d item pos Hfuel Hitem Hok;
    pose proof (lookup_lt_Some _ _ _ Hitem) as Hlen;
    cbn [TinyQueue._down_loop]; [lia|].
  unfold TinyQueue.length.
  destruct (pos <? length d / 2)%nat eqn:Hhalf.
  2:{ apply Nat.ltb_ge in Hhalf. apply Hdone; [done | done |].
      intros c x Hc Hpar Hx. apply lookup_lt_Some in Hx. lia. }
  apply Nat.ltb_lt in Hhalf.
  assert (∀ (best : nat) b, d !! best = Some b →
            (best = 2 * pos + 1 ∨ best = 2 * pos + 1 + 1)%nat →
            (∀ (c : nat) x, (c = 2 * pos + 1 ∨ c = 2 * pos + 1 + 1)%nat →
               d !! c = Some x → qv_expiresAt b <= qv_expiresAt x) →
            heap_ordered
              (if 0 <=? TinyQueue.compare b item then <[pos := item]> d
               else TinyQueue._down_loop fuel (<[pos := b]> d) item best)
            ∧ (if 0 <=? TinyQueue.compare b item then <[pos := item]> d
               else TinyQueue._down_loop fuel (<[pos := b]> d) item best) ≡ₚ d)
    as Hstep.
  { intros best b Hb Hbest Hleast. unfold TinyQueue.compare.
    destruct (0 <=? qv_expiresAt b - qv_expiresAt item) eqn:Hcmp.
    { apply Hdone; [done | done |]. intros c x Hc Hpar Hx.
      assert (qv_expiresAt b <= qv_expiresAt x); [|lia].
      eapply (Hleast c); [lia | done]. }
    rewrite down_loop_hole.
    set (d' := <[best := item]> (<[pos := b]> d)).
    assert (d' ≡ₚ d) as Hperm by (by apply Permutation_insert_swap).
    pose proof (lookup_lt_Some _ _ _ Hb) as Hblen.
    destruct (IH d' item best) as (Hheap & Hperm').
    - subst d'. rewrite !length_insert. lia.
    - subst d'. apply list_lookup_insert_eq. rewrite length_insert. lia.
    - destruct Hok as (Hdown & Hgrand). subst d'. split.
      + intros i x p Hi Hne Hx Hp.
        split_lookup Hp; [lia|]. split_lookup Hp.
        * subst p. split_lookup Hx; [subst; lia|]. split_lookup Hx; [lia|].
          eapply (Hleast i); [lia | done].
        * split_lookup Hx; [lia|]. split_lookup Hx.
          -- subst x. eapply (Hgrand best); [lia | lia | lia | done |]. congruence.
          -- eapply (Hdown i); [lia | lia | done | done].
      + intros c x p Hpp Hc Hpar Hx Hp.
        split_lookup Hp; [lia|]. split_lookup Hp; [|lia]. subst p.
        split_lookup Hx; [lia|]. split_lookup Hx; [lia|].
        eapply (Hdown c); [lia | lia | done |]. congruence.
    - split; [done|]. by etrans. }
  destruct (lookup_lt_is_Some_2 d (2 * pos + 1)%nat) as [l Hl]; [lia|].
  rewrite Hl.
  destruct (d !! (2 * pos + 1 + 1)%nat) as [r|] eqn:Hr.
  - destruct (TinyQueue.compare r l <? 0) eqn:Hrl; unfold TinyQueue.compare in Hrl.
    + rewrite Hr. apply Hstep; [done | lia |].
      intros c x [->| ->] Hx.
      * assert (x = l) as -> by congruence. lia.
      * assert (x = r) as -> by congruence. lia.
    + rewrite Hl. apply Hstep; [done | lia |].
      intros c x [->| ->] Hx.
      * assert (x = l) as -> by congruence. lia.
      * assert (x = r) as -> by congruence. lia.
  - rewrite Hl. apply Hstep; [done | lia |].
    intros c x [->| ->] Hx; [|congruence].
    assert (x = l) as -> by congruence. lia.
Qed.

Lemma length_up_loop fuel : ∀ (d : TinyQueue.t) item pos,
  length (TinyQueue._up_loop fuel d item pos) = length d.
Proof.
  induction fuel as [|fuel IH]; intros d item pos; cbn [TinyQueue._up_loop].
  { apply length_insert. }
  destruct (pos =? 0)%nat; [apply length_insert|].
  destruct (d !! ((pos - 1) / 2)%nat) as [current|]; [|apply length_insert].
  destruct (0 <=? TinyQueue.compare item current); [apply length_insert|].
  rewrite IH. apply length_insert.
Qed.

Lemma length_down_loop fuel : ∀ (d : TinyQueue.t) item pos,
  length (TinyQueue._down_loop fuel d item pos) = length d.
Proof.
  induction fuel as [|fuel IH]; intros d item pos; cbn [TinyQueue._down_loop].
  { apply length_insert. }
  destruct (pos <? _)%nat; [|apply length_insert].
  destruct (d !! (2 * pos + 1)%nat) as [l|]; [|apply length_insert].
  destruct (d !! _) as [best|]; [|apply length_insert].
  destruct (0 <=? TinyQueue.compare best item); [apply length_insert|].
  rewrite IH. apply length_insert.
Qed.

Lemma length_push (q : TinyQueue.t) item :
  length (TinyQueue.push q item) = S (length q).
Proof.
  unfold TinyQueue.push, TinyQueue._up.
  destruct ((q ++ [item]) !! TinyQueue.length q); rewrite ?length_up_loop;
    rewrite length_app; cbn; lia.
Qed.

Lemma length_down (d : TinyQueue.t) pos :
  length (TinyQueue._down d pos) = length d.
Proof.
  unfold TinyQueue._down. destruct (d !! pos); [|done]. apply length_down_loop.
Qed.

Lemma length_pop (q : TinyQueue.t) :
  length (TinyQueue.pop q).2 = Nat.pred (length q).
Proof.
  unfold TinyQueue.pop. destruct (q !! 0%nat) as [top|] eqn:Htop.
  2:{ destruct q; [done|discriminate]. }
  destruct (last q) as [bottom|] eqn:Hlast.
  2:{ apply last_None in Hlast. by subst. }
  assert (length (removelast q) = Nat.pred (length q)) as Hlen.
  { rewrite removelast_firstn_len, length_take. lia. }
  destruct (0 <? TinyQueue.length (removelast q))%nat; cbn [snd]; [|done].
  by rewrite length_down, length_insert.
Qed.

(** [push] keeps the heap ordered and adds exactly the pushed item. *)
Lemma push_spec (q : TinyQueue.t) item :
  heap_ordered q →
  heap_ordered (TinyQueue.push q item) ∧ TinyQueue.push q item ≡ₚ item :: q.
Proof.
  intros Hheap. unfold TinyQueue.push, TinyQueue._up, TinyQueue.length.
  assert ((q ++ [item]) !! length q = Some item) as Hitem.
  { rewrite lookup_app_r by lia. by rewrite Nat.sub_diag. }
  rewrite Hitem.
  destruct (up_loop_spec (length q) (q ++ [item]) item (length q)) as (Hh & Hp);
    [lia | done | |].
  - split.
    + intros i x p Hi Hne Hx Hp.
      pose proof (lookup_lt_Some _ _ _ Hx) as Hlen. rewrite length_app in Hlen.
      cbn in Hlen. rewrite lookup_app_l in Hx, Hp by lia. by eapply Hheap.
    + intros c x p Hpos Hc Hpar Hx Hp.
      apply lookup_lt_Some in Hx. rewrite length_app in Hx. cbn in Hx. lia.
  - split; [done|]. rewrite Hp. by rewrite Permutation_app_comm.
Qed.

(** [pop] answers [undefined] on the empty queue only; otherwise it answers
    the item [peek] shows, keeps the heap ordered and removes exactly that
    item. *)
Lemma pop_spec (q : TinyQueue.t) :
  heap_ordered q →
  match TinyQueue.pop q with
  | (Some top, q') =>
      TinyQueue.peek q = Some top ∧ heap_ordered q' ∧ q ≡ₚ top :: q'
  | (None, q') => q = [] ∧ q' = []
  end.
Proof.
  intros Hheap. unfold TinyQueue.pop, TinyQueue.peek.
  destruct q as [|bottom d _] using rev_ind; [done|].
  rewrite last_snoc, removelast_last.
  destruct d as [|top rest]; cbn [app lookup list_lookup TinyQueue.length length Nat.ltb Nat.leb].
  { split; [done|]. split; [|done]. intros i x p _ Hx. by destruct i. }
  cbn [insert list_insert].
  unfold TinyQueue._down. cbn [lookup list_lookup].
  destruct (down_loop_spec (TinyQueue.length (bottom :: rest)) (bottom :: rest) bottom 0)
    as (Hh & Hp); [cbn; lia | done | |].
  - split; [|intros; lia].
    intros i x p Hi Hne Hx Hp.
    destruct i as [|i]; [lia|].
    destruct ((S i - 1) / 2)%nat as [|j] eqn:Hj; [done|].
    cbn in Hx, Hp.
    apply (Hheap (S i)); [lia | |].
    + cbn. apply lookup_app_l_Some. done.
    + rewrite Hj. cbn. apply lookup_app_l_Some. done.
  - split; [done|]. split; [done|].
    rewrite Hp. cbn. constructor. by rewrite Permutation_app_comm.
Qed.

(** In a heap-ordered array no item expires before the one at index 0. *)
Lemma root_minimal (q : TinyQueue.t) top :
  heap_ordered q → TinyQueue.peek q = Some top →
  ∀ x, x ∈ q → qv_expiresAt top <= qv_expiresAt x.
Proof.
  intros Hheap Htop x Hx. apply list_elem_of_lookup in Hx as [i Hi].
  revert x Hi. induction i as [i IH] using lt_wf_ind. intros x Hi.
  destruct (decide (i = 0%nat)) as [->|Hne].
  { unfold TinyQueue.peek in Htop. assert (x = top) as -> by congruence. lia. }
  pose proof (lookup_lt_Some _ _ _ Hi) as Hlen.
  destruct (lookup_lt_is_Some_2 q ((i - 1) / 2)%nat) as [p Hp]; [lia|].
  assert (qv_expiresAt top <= qv_expiresAt p) by (eapply IH; [|done]; lia).
  assert (qv_expiresAt p <= qv_expiresAt x) by (eapply (Hheap i); [lia|done|done]).
  lia.
Qed.

Lemma heap_ordered_nil : heap_ordered [].
Proof. intros i x p _ Hx. by destruct i. Qed.

Lemma pop_heap_ordered (q : TinyQueue.t) :
  heap_ordered q → heap_ordered (TinyQueue.pop q).2.
Proof.
  intros Hheap. pose proof (pop_spec q Hheap) as Hpop.
  destruct (TinyQueue.pop q) as [[top|] q']; cbn.
  - by destruct Hpop as (_ & ? & _).
  - destruct Hpop as (_ & ->). apply heap_ordered_nil.
Qed.

Lemma scheduleNext_loop_heap_ordered fuel : ∀ w,
  heap_ordered (queue w) → heap_ordered (queue (TempBox._scheduleNext_loop fuel w)).
Proof.
  induction fuel as [|fuel IH]; intros w Hheap; cbn [TempBox._scheduleNext_loop];
    [done|].
  destruct (TinyQueue.peek (queue w)) as [item|]; [|done].
  assert (heap_ordered
            (queue (TempBox._scheduleNext_loop fuel
                      (set_queue (TinyQueue.pop (queue w)).2 w)))) as Hpop.
  { apply IH. cbn. by apply pop_heap_ordered. }
  destruct (data w !! qv_key item) as [entry|]; [|done].
  destruct (decide _); done.
Qed.

Lemma scheduleNext_heap_ordered w :
  heap_ordered (queue w) → heap_ordered (queue (TempBox._scheduleNext w)).
Proof.
  intros Hheap. rewrite scheduleNext_unfold.
  apply scheduleNext_loop_heap_ordered.
  by destruct (cleared_frame w) as (_ & _ & _ & -> & _).
Qed.

Lemma clear_loop_heap_ordered fuel : ∀ q,
  heap_ordered q → heap_ordered (TempBox.clear_loop fuel q).
Proof.
  induction fuel as [|fuel IH]; intros q Hheap; cbn [TempBox.clear_loop]; [done|].
  destruct (0 <? TinyQueue.length q)%nat; [|done].
  apply IH. by apply pop_heap_ordered.
Qed.

Lemma step_heap_ordered e w w' :
  heap_ordered (queue w) → step e w = Some w' → heap_ordered (queue w').
Proof.
  intros Hheap. destruct e; cbn [step].
  - intros [= <-]. unfold TempBox.set. cbn [queue call].
    destruct (if truthy ttlMs then _ else _) as [e|]; [|done].
    destruct (truthy (Some e)); [|done].
    apply scheduleNext_heap_ordered. cbn. by apply push_spec.
  - intros [= <-]. by destruct (get_frame k w) as (_ & _ & -> & _).
  - intros [= <-]. rewrite has_world.
    by destruct (get_frame k w) as (_ & _ & -> & _).
  - intros [= <-]. by destruct (delete_frame k w) as (_ & _ & -> & _).
  - intros [= <-]. unfold TempBox.clear. cbn -[TempBox.stop].
    apply clear_loop_heap_ordered.
    by destruct (stop_frame (set_data (λ _, ∅) w)) as (_ & -> & _).
  - intros [= <-]. by destruct (stop_frame w) as (_ & -> & _).
  - destruct (0 <=? d); [|done]. by intros [= <-].
  - unfold fire. destruct (list_find _ _) as [[i t]|]; [|done].
    destruct (due t <=? now w); [|done]. intros [= <-].
    unfold TempBox.on_timeout. apply scheduleNext_heap_ordered. cbn.
    by apply pop_heap_ordered.
Qed.

Lemma reachable_heap_ordered w : reachable w → heap_ordered (queue w).
Proof.
  intros (start & es & Hrun).
  assert (∀ w0, heap_ordered (queue w0) → run es w0 = Some w → heap_ordered (queue w))
    as Hgen.
  { clear. induction es as [|e es IH]; intros w0 Hheap; cbn [run].
    - by intros [= <-].
    - destruct (step e w0) as [w1|] eqn:Hstep; [|done].
      apply IH. by eapply step_heap_ordered. }
  eapply Hgen; [|exact Hrun]. apply heap_ordered_nil.
Qed.

(** ** The loops run to completion

    The loops of [_scheduleNext] and [clear] are given [queue.length] turns
    of fuel.  That is enough: more fuel changes nothing, and [clear] leaves
    the queue empty. *)

Lemma scheduleNext_loop_fuel f1 : ∀ f2 w,
  (length (queue w) ≤ f1)%nat → (length (queue w) ≤ f2)%nat →
  TempBox._scheduleNext_loop f1 w = TempBox._scheduleNext_loop f2 w.
Proof.
  induction f1 as [|f1 IH]; intros f2 w H1 H2.
  { rewrite !scheduleNext_loop_empty; [done|..]; destruct (queue w); cbn in *; done || lia. }
  destruct f2 as [|f2].
  { rewrite !scheduleNext_loop_empty; [done|..]; destruct (queue w); cbn in *; done || lia. }
  cbn [TempBox._scheduleNext_loop].
  destruct (TinyQueue.peek (queue w)) as [item|]; [|done].
  assert (TempBox._scheduleNext_loop f1 (set_queue (TinyQueue.pop (queue w)).2 w)
          = TempBox._scheduleNext_loop f2 (set_queue (TinyQueue.pop (queue w)).2 w))
    as ->; [|done].
  apply IH; cbn; rewrite length_pop; lia.
Qed.

Lemma clear_loop_empties fuel : ∀ (q : TinyQueue.t),
  (length q ≤ fuel)%nat → TempBox.clear_loop fuel q = [].
Proof.
  induction fuel as [|fuel IH]; intros q Hlen; cbn [TempBox.clear_loop].
  { destruct q; [done | cbn in Hlen; lia]. }
  unfold TinyQueue.length. destruct q as [|x q]; [done|].
  cbn [length Nat.ltb Nat.leb]. apply IH. rewrite length_pop. cbn in *. lia.
Qed.

Lemma clear_queue w : queue (TempBox.clear w) = [].
Proof.
  unfold TempBox.clear. cbn -[TempBox.stop]. by apply clear_loop_empties.
Qed.

(** ** Reconcile, in the words of the specification *)

Lemma peek_minimum (q : TinyQueue.t) item :
  heap_ordered q → TinyQueue.peek q = Some item → minimum q item.
Proof.
  intros Hheap Hpeek. split.
  - apply list_elem_of_lookup. by exists 0%nat.
  - by apply root_minimal.
Qed.

Lemma scheduleNext_loop_reconciles fuel : ∀ w,
  (length (queue w) ≤ fuel)%nat → heap_ordered (queue w) →
  ∃ armed,
    reconcile (data w) (now w) (queue w)
      (queue (TempBox._scheduleNext_loop fuel w)) armed
    ∧ timeouts (TempBox._scheduleNext_loop fuel w)
      = timeouts w ++ registration (next_handle w) (now w) armed
    ∧ timer (TempBox._scheduleNext_loop fuel w)
      = match armed with Some _ => Some (next_handle w) | None => timer w end
    ∧ match armed with
      | Some (item, _, _) =>
          TinyQueue.peek (queue (TempBox._scheduleNext_loop fuel w)) = Some item
      | None => queue (TempBox._scheduleNext_loop fuel w) = []
      end.
Proof.
  induction fuel as [|fuel IH]; intros w Hlen Hheap.
  { assert (queue w = []) as Hq by (destruct (queue w); [done | cbn in Hlen; lia]).
    rewrite scheduleNext_loop_empty, Hq by done.
    exists None. cbn. rewrite app_nil_r. split; [constructor|done]. }
  destruct (TinyQueue.peek (queue w)) as [item|] eqn:Hpeek.
  2:{ assert (queue w = []) as Hq by (by destruct (queue w)).
      rewrite scheduleNext_loop_empty, Hq by done.
      exists None. cbn. rewrite app_nil_r. split; [constructor|done]. }
  pose proof (peek_minimum _ _ Hheap Hpeek) as Hmin.
  destruct (decide (stale (data w) item)) as [Hstale|Hvalid].
  - rewrite (scheduleNext_loop_stale fuel w item Hpeek Hstale).
    pose proof (pop_spec _ Hheap) as Hpop.
    pose proof (length_pop (queue w)) as Hpoplen.
    destruct (TinyQueue.pop (queue w)) as [[top|] q1] eqn:Epop.
    2:{ destruct Hpop as (Hnil & _). by rewrite Hnil in Hpeek. }
    destruct Hpop as (Htop & Hheap1 & Hperm).
    assert (top = item) as -> by congruence.
    destruct (IH (set_queue q1 w)) as (armed & Hrec & Htimeouts & Htimer & Hpeek').
    + cbn in Hpoplen |- *. lia.
    + done.
    + exists armed. split; [|done]. by eapply reconcile_stale.
  - unfold stale in Hvalid.
    destruct (data w !! qv_key item) as [entry|] eqn:Hentry; [|done].
    apply dec_stable in Hvalid.
    rewrite (scheduleNext_loop_arm fuel w item entry Hpeek Hentry Hvalid).
    exists (Some (item, entry, Z.max 0 (qv_expiresAt item - now w))).
    split; [by apply reconcile_valid|]. done.
Qed.

(** [set] with a TTL that counts, and the event loop running a timeout,
    are [_scheduleNext] in the worlds of [scheduling]. *)
Lemma set_scheduling k v ttl w :
  ttl ≠ 0 → now w + ttl ≠ 0 →
  TempBox.set k v (Some ttl) w
  = call (OnSet k v) (TempBox._scheduleNext (set_enters k v (now w + ttl) w)).
Proof. apply set_with_ttl. Qed.

Lemma fire_scheduling h w w' :
  fire h w = Some w' →
  ∃ t, t ∈ timeouts w ∧ handle t = h ∧ due t <= now w
       ∧ w' = TempBox._scheduleNext (timeout_enters t w).
Proof.
  unfold fire. intros Hfire.
  destruct (list_find _ _) as [[i t]|] eqn:Hfind; [|done].
  apply list_find_Some in Hfind as (Hi & Hh & _).
  destruct (Z.leb_spec (due t) (now w)); [|done].
  exists t. split; [by eapply list_elem_of_lookup_2|].
  split; [done|]. split; [done|]. subst h. by injection Hfire as <-.
Qed.

Lemma scheduling_inv w :
  scheduling w → timer_inv w ∧ heap_ordered (queue w).
Proof.
  intros [k v e w0 Hreach | t w0 Hreach Ht].
  - pose proof (reachable_timer_inv _ Hreach) as Hinv.
    pose proof (reachable_heap_ordered _ Hreach) as Hheap.
    split.
    + by apply (timer_inv_ext w0).
    + cbn. by apply push_spec.
  - pose proof (reachable_timer_inv _ Hreach) as Hinv.
    pose proof (reachable_heap_ordered _ Hreach) as Hheap.
    split.
    + left. cbn. destruct Hinv as [Hnil | (t' & Hts & _)].
      * by rewrite Hnil.
      * rewrite Hts in Ht |- *. apply list_elem_of_singleton in Ht as ->.
        cbn. by rewrite decide_False by (intros Hne; by apply Hne).
    + cbn. by apply pop_heap_ordered.
Qed.

(** C5. Wherever [_scheduleNext] runs (the scheduler holds at most its own
    pending timeout and the queue is heap ordered, as in the worlds [set]
    and the arrow function of a timeout call it in), it does what Reconcile
    says: it peeks a minimum item of the queue; an item whose key has no
    entry in the table, or an entry with another [expiresAt], is popped and
    dropped and the peek repeated; at the first valid item it registers one
    timeout with delay [max(0, expiresAt - now)] for that item's key and
    entry, leaves the item in the queue and stops; on an empty queue it
    registers nothing.  That timeout is then the only pending one; the
    table, the clock and the calls made so far are untouched. *)
Theorem scheduleNext_reconciles (w : World) :
  timer_inv w → heap_ordered (queue w) →
  let w' := TempBox._scheduleNext w in
  ∃ armed,
    reconcile (data w) (now w) (queue w) (queue w') armed
    ∧ timeouts w' = registration (next_handle w) (now w) armed
    ∧ timer w' = match armed with Some _ => Some (next_handle w) | None => timer w end
    ∧ data w' = data w ∧ now w' = now w ∧ calls w' = calls w.
Proof.
  intros Hinv Hheap. cbn zeta.
  destruct (scheduleNext_frame w) as (Hd & Hn & Hc).
  rewrite scheduleNext_unfold in *.
  destruct (cleared_frame w) as (Hd' & Hn' & _ & Hq' & Ht' & Hh').
  destruct (scheduleNext_loop_reconciles (TinyQueue.length (queue (cleared w)))
              (cleared w)) as (armed & Hrec & Htimeouts & Htimer & _).
  { done. }
  { by rewrite Hq'. }
  exists armed. rewrite Hd', Hn', Hq' in Hrec.
  rewrite cleared_timeouts, Hh', Hn' in Htimeouts by done.
  rewrite Ht', Hh' in Htimer. rewrite Hq' in Hd, Hn, Hc, Htimeouts, Htimer |- *.
  done.
Qed.

Lemma scheduleNext_reconciles_witness :
  ∃ w0, run stale_day (new 0) = Some w0
        ∧ let w := set_enters "c" (JStr "4") 900 w0 in
          timeouts (TempBox._scheduleNext w)
          = [mkTimeout 2 0 500 "b" (mkEntry (JStr "2") (Some 500))]
          ∧ ∃ armed,
              reconcile (data w) (now w) (queue w)
                (queue (TempBox._scheduleNext w)) armed
              ∧ timeouts (TempBox._scheduleNext w)
                = registration (next_handle w) (now w) armed.
Proof.
  eexists. split; [vm_compute; reflexivity|]. cbn zeta.
  split; [vm_compute; reflexivity|].
  match goal with
  | |- context [TempBox._scheduleNext ?w] =>
      destruct (scheduling_inv w) as (Hinv & Hheap);
      [ apply scheduling_set; exists 0, stale_day; vm_compute; reflexivity
      | destruct (scheduleNext_reconciles w Hinv Hheap)
          as (armed & Hrec & Htimeouts & _);
        exists armed; split; [exact Hrec | exact Htimeouts] ]
  end.
Defined.

(** ** A key that waits for its timeout *)

Lemma set_frame k v ttlMs w :
  calls (TempBox.set k v ttlMs w) = calls w ++ [OnSet k v]
  ∧ now (TempBox.set k v ttlMs w) = now w.
Proof.
  unfold TempBox.set. cbn [calls now call].
  destruct (if truthy ttlMs then _ else _) as [e|]; [|done].
  destruct (truthy (Some e)); [|done].
  match goal with |- context [TempBox._scheduleNext ?x] =>
    destruct (scheduleNext_frame x) as (_ & -> & ->) end.
  done.
Qed.

Lemma expired_snoc w w' c :
  calls w' = calls w ++ [c] →
  expired w' = expired w ++ match c with OnExpire k v => [(k, v)] | _ => [] end.
Proof.
  intros Hc. unfold expired. rewrite Hc, omap_app. f_equal. by destruct c.
Qed.

Lemma expired_for_call k c w :
  expired_for k (call c w)
  = expired_for k w
    ++ match c with
       | OnExpire k' v => if decide (k' = k) then [(k', v)] else []
       | _ => []
       end.
Proof.
  unfold expired_for. rewrite (expired_snoc w (call c w) c) by done.
  rewrite filter_app. f_equal. by destruct c.
Qed.

Lemma reachable_step e w w' : reachable w → step e w = Some w' → reachable w'.
Proof.
  intros (start & es & Hrun) Hstep. exists start, (es ++ [e]).
  revert Hrun. generalize (new start). induction es as [|e' es IH]; intros w0; cbn.
  - intros [= ->]. by rewrite Hstep.
  - destruct (step e' w0); [apply IH|done].
Qed.

(** Reconcile drops stale items only, ends idle on an empty queue only, and
    arms an item only with the entry the table has for it. *)
Lemma reconcile_keeps tbl clock q q' armed x :
  reconcile tbl clock q q' armed → x ∈ q → ¬ stale tbl x → x ∈ q'.
Proof.
  induction 1 as [|q q1 q' item armed Hmin Hstale Hperm _ IH|]; intros Hx Hvalid;
    [done| |done].
  apply IH; [|done]. rewrite Hperm in Hx.
  apply elem_of_cons in Hx as [->|Hx]; done.
Qed.

Lemma reconcile_armed tbl clock q q' item entry delay :
  reconcile tbl clock q q' (Some (item, entry, delay)) →
  tbl !! qv_key item = Some entry
  ∧ expiresAt entry = Some (qv_expiresAt item)
  ∧ delay = Z.max 0 (qv_expiresAt item - clock).
Proof.
  remember (Some (item, entry, delay)) as armed eqn:Harmed.
  induction 1; [done | by apply IHreconcile |].
  injection Harmed as <- <- <-. done.
Qed.

Lemma scheduleNext_loop_length fuel : ∀ w,
  (length (queue (TempBox._scheduleNext_loop fuel w)) ≤ length (queue w))%nat.
Proof.
  induction fuel as [|fuel IH]; intros w; cbn [TempBox._scheduleNext_loop]; [done|].
  destruct (TinyQueue.peek (queue w)) as [item|]; [|done].
  assert (length (queue (TempBox._scheduleNext_loop fuel
                           (set_queue (TinyQueue.pop (queue w)).2 w)))
          ≤ length (queue w))%nat as Hpop.
  { etrans; [apply IH|]. cbn. rewrite length_pop. lia. }
  destruct (data w !! qv_key item) as [entry|]; [|done].
  destruct (decide _); [|done]. cbn. done.
Qed.

Lemma scheduleNext_length w :
  (length (queue (TempBox._scheduleNext w)) ≤ length (queue w))%nat.
Proof.
  rewrite scheduleNext_unfold. etrans; [apply scheduleNext_loop_length|].
  by destruct (cleared_frame w) as (_ & _ & _ & -> & _).
Qed.

(** With a valid item in the queue, [_scheduleNext] ends armed: the item
    is still in the queue, and the one pending timeout is registered for
    the first item of the queue, with the entry the table has for it. *)
Lemma scheduleNext_rearm w x :
  timer_inv w → heap_ordered (queue w) → x ∈ queue w → ¬ stale (data w) x →
  x ∈ queue (TempBox._scheduleNext w)
  ∧ heap_ordered (queue (TempBox._scheduleNext w))
  ∧ ∃ item entry,
      TinyQueue.peek (queue (TempBox._scheduleNext w)) = Some item
      ∧ data w !! qv_key item = Some entry
      ∧ expiresAt entry = Some (qv_expiresAt item)
      ∧ timeouts (TempBox._scheduleNext w)
        = [mkTimeout (next_handle w) (now w) (Z.max 0 (qv_expiresAt item - now w))
             (qv_key item) entry]
      ∧ timer (TempBox._scheduleNext w) = Some (next_handle w).
Proof.
  intros Hinv Hheap Hx Hvalid.
  split; [|split; [by apply scheduleNext_heap_ordered|]].
  all: rewrite scheduleNext_unfold.
  all: destruct (cleared_frame w) as (Hd & Hn & _ & Hq & _ & Hh).
  all: destruct (scheduleNext_loop_reconciles (TinyQueue.length (queue (cleared w)))
                   (cleared w)) as (armed & Hrec & Htimeouts & Htimer & Hpeek);
         [done | by rewrite Hq |].
  all: rewrite Hd, Hn, Hq in Hrec at 1.
  all: pose proof (reconcile_keeps _ _ _ _ _ x Hrec Hx Hvalid) as Hx'.
  - done.
  - destruct armed as [[[item entry] delay]|].
    2:{ rewrite Hpeek in Hx'. by apply elem_of_nil in Hx'. }
    apply reconcile_armed in Hrec as (Hentry & Hexp & ->).
    exists item, entry. rewrite cleared_timeouts, Hh, Hn in Htimeouts by done.
    rewrite Hh in Htimer. done.
Qed.

(** Without an entry for [k] in the table, [_scheduleNext] registers no
    timeout for [k]. *)
Lemma scheduleNext_foreign k w :
  timer_inv w → data w !! k = None →
  Forall (λ t, t_key t ≠ k) (timeouts (TempBox._scheduleNext w)).
Proof.
  intros Hinv Hk. rewrite scheduleNext_unfold.
  destruct (cleared_frame w) as (Hd & _).
  destruct (scheduleNext_loop_frame (TinyQueue.length (queue (cleared w))) (cleared w))
    as (_ & _ & _ & [(-> & _) | (item & entry & Hentry & _ & _ & -> & _)]);
    rewrite cleared_timeouts by done; [done|].
  constructor; [|done]. cbn. intros Heq. rewrite Heq, Hd in Hentry. congruence.
Qed.

Lemma expired_for_snoc k c w w' :
  calls w' = calls w ++ [c] →
  (∀ v, c ≠ OnExpire k v) →
  expired_for k w' = expired_for k w.
Proof.
  intros Hc Hne. unfold expired_for. rewrite (expired_snoc w w' c Hc), filter_app.
  destruct c as [| |k' v'|]; cbn; rewrite ?app_nil_r; try done.
  unfold filter. cbn. rewrite decide_False; [by rewrite app_nil_r|].
  cbn. intros ->. by eapply Hne.
Qed.

Lemma expired_for_same k w w' : calls w' = calls w → expired_for k w' = expired_for k w.
Proof. unfold expired_for, expired. by intros ->. Qed.

(** The event loop runs a registration of a store whose one pending timeout
    is the one of [this.timer]: it is that one, and none stays pending. *)
Lemma fire_inv h w w' :
  timer_inv w → fire h w = Some w' →
  ∃ t, timeouts w = [t] ∧ handle t = h ∧ due t <= now w
       ∧ w' = TempBox.on_timeout t (set_timeouts [] w).
Proof.
  intros Hinv. unfold fire.
  destruct Hinv as [Hnil | (t & Ht & _)]; [by rewrite Hnil|].
  rewrite Ht. cbn. case_decide as Hh; [|done]. cbn.
  destruct (due t <=? now w) eqn:Hdue; [|done]. intros [= <-].
  exists t. rewrite decide_False by tauto. repeat split; [done | lia].
Qed.

Lemma get_calls k w :
  calls (TempBox.get k w).2 = calls w
  ∨ ∃ v, calls (TempBox.get k w).2 = calls w ++ [OnExpire k v].
Proof.
  unfold TempBox.get.
  destruct (data w !! k) as [entry|]; [|by left].
  destruct (expiresAt entry) as [e|]; [|by left].
  destruct (truthy (Some e) && (e <=? now w)); [|by left].
  right. by exists (value entry).
Qed.

Lemma delete_calls k w :
  calls (TempBox.delete k w).2 = calls w
  ∨ calls (TempBox.delete k w).2 = calls w ++ [OnDelete k].
Proof. unfold TempBox.delete. destruct (data w !! k); [by right | by left]. Qed.

Lemma get_lookup_ne k k' w : k' ≠ k → data (TempBox.get k' w).2 !! k = data w !! k.
Proof.
  intros Hne. unfold TempBox.get.
  destruct (data w !! k') as [entry|]; [|done].
  destruct (expiresAt entry) as [e|]; [|done].
  destruct (truthy (Some e) && (e <=? now w)); [|done].
  cbn. by apply lookup_delete_ne.
Qed.

Lemma delete_lookup_ne k k' w :
  k' ≠ k → data (TempBox.delete k' w).2 !! k = data w !! k.
Proof.
  intros Hne. unfold TempBox.delete. destruct (data w !! k'); [|done].
  cbn. by apply lookup_delete_ne.
Qed.

Lemma clear_frame w :
  timer_inv w →
  timeouts (TempBox.clear w) = [] ∧ timer (TempBox.clear w) = None
  ∧ now (TempBox.clear w) = now w ∧ calls (TempBox.clear w) = calls w ++ [OnClear].
Proof.
  intros Hinv. unfold TempBox.clear. cbn -[TempBox.stop].
  destruct (stop_frame (set_data (λ _, ∅) w)) as (_ & _ & -> & -> & _ & ->).
  split; [|done]. apply stop_timeouts. by eapply timer_inv_ext.
Qed.

Lemma step_clock e w w' : step e w = Some w' → now w <= now w'.
Proof.
  destruct e; cbn [step].
  - intros [= <-]. destruct (set_frame k v ttlMs w) as (_ & ->). lia.
  - intros [= <-]. destruct (get_frame k w) as (_ & _ & _ & -> & _). lia.
  - intros [= <-]. rewrite has_world.
    destruct (get_frame k w) as (_ & _ & _ & -> & _). lia.
  - intros [= <-]. destruct (delete_frame k w) as (_ & _ & _ & -> & _). lia.
  - intros [= <-]. unfold TempBox.clear. cbn -[TempBox.stop].
    destruct (stop_frame (set_data (λ _, ∅) w)) as (_ & _ & -> & _). cbn. lia.
  - intros [= <-]. destruct (stop_frame w) as (_ & _ & -> & _). lia.
  - destruct (0 <=? d) eqn:Hd; [|done]. intros [= <-]. cbn. lia.
  - unfold fire. destruct (list_find _ _) as [[i t]|]; [|done].
    destruct (due t <=? now w); [|done]. intros [= <-].
    match goal with |- context [TempBox.on_timeout ?t ?x] =>
      destruct (on_timeout_frame t x) as (_ & -> & _) end.
    cbn. lia.
Qed.

Lemma run_clock es : ∀ w w', run es w = Some w' → now w <= now w'.
Proof.
  induction es as [|e es IH]; intros w w'; cbn [run].
  - intros [= <-]. lia.
  - destruct (step e w) as [w1|] eqn:Hstep; [|done]. intros Hrun.
    apply step_clock in Hstep. apply IH in Hrun. lia.
Qed.

Lemma run_app es1 es2 w w' :
  run (es1 ++ es2) w = Some w' ↔ ∃ w1, run es1 w = Some w1 ∧ run es2 w1 = Some w'.
Proof.
  revert w. induction es1 as [|e es1 IH]; intros w; cbn [app run].
  - split; [eauto | by intros (w1 & [= <-] & ?)].
  - destruct (step e w); [apply IH|]. split; [done | by intros (? & ? & _)].
Qed.

Lemma reachable_run es w w' : reachable w → run es w = Some w' → reachable w'.
Proof.
  revert w. induction es as [|e es IH]; intros w Hreach; cbn [run].
  - by intros [= <-].
  - destruct (step e w) as [w1|] eqn:Hstep; [|done].
    apply IH. by eapply reachable_step.
Qed.

Lemma scheduleNext_armed_head w : timer_inv w → armed_head (TempBox._scheduleNext w).
Proof.
  intros Hinv. rewrite scheduleNext_unfold.
  destruct (scheduleNext_loop_frame (TinyQueue.length (queue (cleared w))) (cleared w))
    as (_ & Hn & _ & [(Ht & _) | (item & entry & _ & Hexp & Hpeek & Ht & _)]);
    rewrite cleared_timeouts in Ht by done; intros t Hin; rewrite Ht in Hin.
  - by apply elem_of_nil in Hin.
  - apply list_elem_of_singleton in Hin as ->. exists item. cbn.
    split; [done|]. split; [done|]. split; [done|]. split; [done|]. lia.
Qed.

Lemma armed_head_ext w w' :
  queue w' = queue w → timeouts w' = timeouts w → now w <= now w' →
  armed_head w → armed_head w'.
Proof.
  unfold armed_head. intros -> -> Hnow Hhead t Hin.
  destruct (Hhead t Hin) as (item & ? & ? & ? & ? & ?).
  exists item. repeat split; [done..|lia].
Qed.

Lemma armed_head_idle w : timeouts w = [] → armed_head w.
Proof. intros Ht t Hin. rewrite Ht in Hin. by apply elem_of_nil in Hin. Qed.

Lemma step_armed_head e w w' :
  timer_inv w → armed_head w → step e w = Some w' → armed_head w'.
Proof.
  intros Hinv Hhead. destruct e; cbn [step].
  - intros [= <-]. unfold TempBox.set.
    destruct (if truthy ttlMs then _ else _) as [e|];
      [|by eapply armed_head_ext; [..|exact Hhead]].
    destruct (truthy (Some e)); [|by eapply armed_head_ext; [..|exact Hhead]].
    eapply armed_head_ext; [reflexivity | reflexivity | reflexivity |].
    apply scheduleNext_armed_head. by eapply timer_inv_ext.
  - intros [= <-]. destruct (get_frame k w) as (Ht & _ & Hq & Hn & _).
    eapply (armed_head_ext w); [done | done | lia | done].
  - intros [= <-]. rewrite has_world.
    destruct (get_frame k w) as (Ht & _ & Hq & Hn & _).
    eapply (armed_head_ext w); [done | done | lia | done].
  - intros [= <-]. destruct (delete_frame k w) as (Ht & _ & Hq & Hn & _).
    eapply (armed_head_ext w); [done | done | lia | done].
  - intros [= <-]. apply armed_head_idle. by apply clear_frame.
  - intros [= <-]. apply armed_head_idle. by apply stop_timeouts.
  - destruct (Z.leb_spec 0 d); [|done]. intros [= <-].
    eapply (armed_head_ext w); [done | done | cbn; lia | done].
  - intros Hfire. apply fire_inv in Hfire as (t & _ & _ & _ & ->); [|done].
    unfold TempBox.on_timeout. apply scheduleNext_armed_head. by left.
Qed.

Lemma reachable_armed_head w : reachable w → armed_head w.
Proof.
  intros (start & es & Hrun).
  assert (∀ w0, timer_inv w0 → armed_head w0 → run es w0 = Some w → armed_head w)
    as Hgen.
  { clear. induction es as [|e es IH]; intros w0 Hinv Hhead; cbn [run].
    - by intros [= <-].
    - destruct (step e w0) as [w1|] eqn:Hstep; [|done].
      apply IH; [by eapply step_timer_inv | by eapply step_armed_head]. }
  eapply Hgen; [| |exact Hrun]; [by left | by apply armed_head_idle].
Qed.

Lemma waiting_timer_inv k v E base w : waiting k v E base w → timer_inv w.
Proof. intros (_ & _ & _ & _ & t & item & Ht & Htimer & _). right. eauto. Qed.

(** [waiting] looks at the entry of [k], the calls of [onExpire] for [k],
    the queue, the timer and the pending timeouts only. *)
Lemma waiting_ext k v E base w w' :
  waiting k v E base w →
  expired_for k w' = expired_for k w → data w' !! k = data w !! k →
  queue w' = queue w → timeouts w' = timeouts w → timer w' = timer w →
  waiting k v E base w'.
Proof.
  intros (He & Hk & Hq & Hheap & t & item & Ht & Htimer & Hpeek & Hkey & Hmine)
    He' Hk' Hq' Ht' Htimer'.
  unfold waiting. rewrite He', Hk', Hq', Ht', Htimer'.
  do 4 (split; [done|]). by exists t, item.
Qed.

Lemma waiting_rearm k v E base x :
  timer_inv x → heap_ordered (queue x) → mkQueued E k ∈ queue x →
  data x !! k = Some (mkEntry v (Some E)) → expired_for k x = base →
  waiting k v E base (TempBox._scheduleNext x).
Proof.
  intros Hinv Hheap Hx Hk Hbase.
  destruct (scheduleNext_frame x) as (Hd & Hn & Hc).
  destruct (scheduleNext_rearm x (mkQueued E k))
    as (Hx' & Hheap' & item & entry & Hpeek & Hentry & Hexp & Ht & Htimer);
    [done | done | done | |].
  { unfold stale. cbn. rewrite Hk. cbn. intros Hne. by apply Hne. }
  split; [by rewrite (expired_for_same k x)|].
  split; [by rewrite Hd|]. split; [done|]. split; [done|].
  eexists _, item. split; [exact Ht|]. cbn.
  do 3 (split; [done|]).
  intros Hkey. rewrite Hkey, Hk in Hentry. by injection Hentry as <-.
Qed.

Lemma waiting_get k v E base j w :
  j ≠ k → waiting k v E base w → waiting k v E base (TempBox.get j w).2.
Proof.
  intros Hne Hw. destruct (get_frame j w) as (Ht & Htimer & Hq & Hn & _).
  eapply waiting_ext; [done | | by apply get_lookup_ne | done | done | done].
  destruct (get_calls j w) as [Hc | (v' & Hc)].
  - by apply expired_for_same.
  - eapply expired_for_snoc; [done|]. congruence.
Qed.

Lemma waiting_step k v E base e w w' :
  quiet k e = true → step e w = Some w' →
  waiting k v E base w → waiting k v E base w' ∨ fired k v E base w'.
Proof.
  intros Hquiet Hstep Hw.
  pose proof (waiting_timer_inv _ _ _ _ _ Hw) as Hinv.
  pose proof (step_timer_inv _ _ _ Hinv Hstep) as Hinv'.
  destruct e as [j v' ttlMs|j|j|j| | |d|h]; try discriminate; cbn in Hquiet, Hstep;
    try apply bool_decide_eq_true in Hquiet.
  - (* set of another key *)
    injection Hstep as <-. left. unfold TempBox.set.
    assert (∀ e, waiting k v E base
                   (call (OnSet j v') (set_data <[j := mkEntry v' e]> w))) as Hplain.
    { intros e. eapply waiting_ext; [done | | | done | done | done].
      - eapply expired_for_snoc; [done|]. congruence.
      - cbn. by apply lookup_insert_ne. }
    destruct (if truthy ttlMs then _ else _) as [e|]; [|apply Hplain].
    destruct (truthy (Some e)); [|apply Hplain].
    destruct Hw as (He & Hk & Hq & Hheap & _).
    eapply waiting_ext; [apply (waiting_rearm k v E base) | | done..].
    + by eapply timer_inv_ext.
    + cbn. by apply push_spec.
    + cbn. destruct (push_spec (queue w) (mkQueued e j) Hheap) as (_ & ->).
      by apply list_elem_of_further.
    + cbn. by rewrite lookup_insert_ne.
    + done.
    + eapply expired_for_snoc; [done|]. congruence.
  - injection Hstep as <-. left. by apply waiting_get.
  - injection Hstep as <-. left. rewrite has_world. by apply waiting_get.
  - (* delete of another key *)
    injection Hstep as <-. left.
    destruct (delete_frame j w) as (Ht & Htimer & Hq & Hn & _).
    eapply waiting_ext; [done | | by apply delete_lookup_ne | done | done | done].
    destruct (delete_calls j w) as [Hc | Hc].
    + by apply expired_for_same.
    + eapply expired_for_snoc; [done|]. congruence.
  - (* time passes *)
    destruct (0 <=? d) eqn:Hd; [|done]. injection Hstep as <-. left.
    eapply waiting_ext; [done | done..].
  - (* the pending timeout fires *)
    apply fire_inv in Hstep as (t & Ht & Hh & Hdue & ->); [|done].
    destruct Hw as (He & Hk & Hq & Hheap & t' & item & Ht' & Htimer & Hpeek & Hkey
                    & Hmine).
    assert (t' = t) as -> by congruence.
    pose proof (pop_spec _ Hheap) as Hpop.
    unfold TempBox.on_timeout in *. cbn [queue set_timeouts] in *.
    destruct (TinyQueue.pop (queue w)) as [[top|] q1] eqn:Epop; cbn [snd] in *.
    2:{ destruct Hpop as (Hnil & _). by rewrite Hnil in Hpeek. }
    destruct Hpop as (Htop & Hheap1 & Hperm).
    assert (top = item) as -> by congruence.
    set (y := TempBox._expire (t_key t) (t_entry t) (set_queue q1 (set_timeouts [] w)))
      in *.
    destruct (scheduleNext_frame y) as (Hd' & Hn' & Hc').
    destruct (decide (t_key t = k)) as [Hmy|Hother].
    + right. pose proof (Hmine Hmy) as Hentry.
      split; [|split; [|split; [done|]]].
      * rewrite (expired_for_same k y _ Hc'). subst y. unfold TempBox._expire.
        rewrite expired_for_call, Hmy, Hentry. cbn. rewrite decide_True by done.
        f_equal. by rewrite <- He.
      * rewrite Hd'. subst y. cbn. rewrite Hmy. apply lookup_delete_eq.
      * apply scheduleNext_foreign; [by left|].
        subst y. cbn. rewrite Hmy. apply lookup_delete_eq.
    + left. apply waiting_rearm.
      * by left.
      * done.
      * subst y. cbn. rewrite Hperm in Hq.
        apply elem_of_cons in Hq as [Heq|Hq]; [|done].
        exfalso. apply Hother. rewrite Hkey, <- Heq. done.
      * subst y. cbn. by rewrite lookup_delete_ne.
      * subst y. unfold TempBox._expire. rewrite expired_for_call.
        rewrite decide_False by done. by rewrite app_nil_r.
Qed.

Lemma set_foreign k j v ttlMs w :
  j ≠ k → timer_inv w → data w !! k = None →
  Forall (λ t, t_key t ≠ k) (timeouts w) →
  Forall (λ t, t_key t ≠ k) (timeouts (TempBox.set j v ttlMs w)).
Proof.
  intros Hne Hinv Hk Hall. unfold TempBox.set. cbn [timeouts call].
  destruct (if truthy ttlMs then _ else _) as [e|]; [|done].
  destruct (truthy (Some e)); [|done].
  apply scheduleNext_foreign; [by eapply timer_inv_ext|].
  cbn. by rewrite lookup_insert_ne.
Qed.

Lemma fired_step k v E base e w w' :
  quiet k e = true → step e w = Some w' →
  fired k v E base w → fired k v E base w'.
Proof.
  intros Hquiet Hstep (He & Hk & Hinv & Hall).
  pose proof (step_timer_inv _ _ _ Hinv Hstep) as Hinv'.
  destruct e as [j v' ttlMs|j|j|j| | |d|h]; try discriminate; cbn in Hquiet, Hstep;
    try apply bool_decide_eq_true in Hquiet.
  - injection Hstep as <-. destruct (set_frame j v' ttlMs w) as (Hc & Hn).
    split; [|split; [|split; [done|]]].
    + rewrite <- He. eapply expired_for_snoc; [done|]. congruence.
    + by rewrite set_lookup_ne.
    + by apply set_foreign.
  - injection Hstep as <-. destruct (get_frame j w) as (Ht & _ & _ & Hn & _).
    split; [|split; [|split; [done|]]].
    + rewrite <- He. destruct (get_calls j w) as [Hc | (v' & Hc)].
      * by apply expired_for_same.
      * eapply expired_for_snoc; [done|]. congruence.
    + by rewrite get_lookup_ne.
    + by rewrite Ht.
  - injection Hstep as <-. rewrite has_world in *.
    destruct (get_frame j w) as (Ht & _ & _ & Hn & _).
    split; [|split; [|split; [done|]]].
    + rewrite <- He. destruct (get_calls j w) as [Hc | (v' & Hc)].
      * by apply expired_for_same.
      * eapply expired_for_snoc; [done|]. congruence.
    + by rewrite get_lookup_ne.
    + by rewrite Ht.
  - injection Hstep as <-. destruct (delete_frame j w) as (Ht & _ & _ & Hn & _).
    split; [|split; [|split; [done|]]].
    + rewrite <- He. destruct (delete_calls j w) as [Hc | Hc].
      * by apply expired_for_same.
      * eapply expired_for_snoc; [done|]. congruence.
    + by rewrite delete_lookup_ne.
    + by rewrite Ht.
  - destruct (0 <=? d) eqn:Hd; [|done]. injection Hstep as <-.
    done.
  - apply fire_inv in Hstep as (t & Ht & Hh & Hdue & ->); [|done].
    rewrite Ht in Hall. apply Forall_cons in Hall as (Hother & _).
    destruct (on_timeout_frame t (set_timeouts [] w)) as (Hd' & Hn' & Hc').
    split; [|split; [|split; [done|]]].
    + rewrite <- He. eapply (expired_for_snoc k _ (set_timeouts [] w)); [done|].
      congruence.
    + rewrite Hd'. cbn. by rewrite lookup_delete_ne.
    + unfold TempBox.on_timeout. apply scheduleNext_foreign; [by left|].
      cbn. by rewrite lookup_delete_ne.
Qed.

Lemma quiet_expired_for k e w w' :
  timer_inv w → quiet k e = true → step e w = Some w' →
  expired_for k w' = expired_for k w
  ∨ ∃ h t, e = Fire h ∧ timeouts w = [t] ∧ t_key t = k.
Proof.
  intros Hinv Hquiet Hstep.
  destruct e as [j v' ttlMs|j|j|j| | |d|h]; try discriminate; cbn in Hquiet, Hstep;
    try apply bool_decide_eq_true in Hquiet.
  - left. injection Hstep as <-. destruct (set_frame j v' ttlMs w) as (Hc & _).
    eapply expired_for_snoc; [done|]. congruence.
  - left. injection Hstep as <-. destruct (get_calls j w) as [Hc | (v' & Hc)].
    + by apply expired_for_same.
    + eapply expired_for_snoc; [done|]. congruence.
  - left. injection Hstep as <-. rewrite has_world.
    destruct (get_calls j w) as [Hc | (v' & Hc)].
    + by apply expired_for_same.
    + eapply expired_for_snoc; [done|]. congruence.
  - left. injection Hstep as <-. destruct (delete_calls j w) as [Hc | Hc].
    + by apply expired_for_same.
    + eapply expired_for_snoc; [done|]. congruence.
  - left. destruct (0 <=? d); [|done]. by injection Hstep as <-.
  - apply fire_inv in Hstep as (t & Ht & _ & _ & ->); [|done].
    destruct (decide (t_key t = k)) as [Hk|Hne]; [right; by exists h, t|].
    left. destruct (on_timeout_frame t (set_timeouts [] w)) as (_ & _ & Hc).
    eapply (expired_for_snoc k _ (set_timeouts [] w)); [done|]. congruence.
Qed.

Lemma waiting_not_fired k v E base w w' :
  waiting k v E base w → fired k v E base w' → expired_for k w' ≠ expired_for k w.
Proof.
  intros (-> & _) (-> & _) Heq. apply (f_equal length) in Heq.
  rewrite length_app in Heq. cbn in Heq. lia.
Qed.

Lemma waiting_step_nonfire k v E base e w w' :
  waiting k v E base w → quiet k e = true → (∀ h, e ≠ Fire h) →
  step e w = Some w' → waiting k v E base w'.
Proof.
  intros Hw Hquiet Hne Hstep.
  destruct (waiting_step k v E base e w w' Hquiet Hstep Hw) as [?|Hf]; [done|].
  exfalso.
  destruct (quiet_expired_for k e w w' (waiting_timer_inv _ _ _ _ _ Hw) Hquiet Hstep)
    as [Heq | (h & t & -> & _)].
  - by eapply waiting_not_fired.
  - by eapply Hne.
Qed.

(** ** When a timeout is due *)

Lemma timer_after_bounds delay :
  1 <= timer_after delay <= Z.max 1 delay
  ∧ (delay <= TIMEOUT_MAX → delay <= timer_after delay).
Proof.
  unfold timer_after, TIMEOUT_MAX.
  destruct (Z.leb_spec 1 delay), (Z.leb_spec delay 2147483647); cbn; lia.
Qed.

(** A timeout registered with the time left until [E] as its delay is due
    at [E], or one millisecond after its registration if [E] was reached
    then, and not before [E] as long as that time fits a timer. *)
Lemma due_bounds t E :
  t_delay t = Z.max 0 (E - t_start t) →
  due t <= Z.max (t_start t + 1) E
  ∧ (E - t_start t <= TIMEOUT_MAX → E <= due t).
Proof.
  intros Hdelay. unfold due. rewrite Hdelay.
  pose proof (timer_after_bounds (Z.max 0 (E - t_start t))). lia.
Qed.

(** The timeouts [_scheduleNext] leaves pending are registered now. *)
Lemma scheduleNext_started w t :
  timer_inv w → t ∈ timeouts (TempBox._scheduleNext w) → t_start t = now w.
Proof.
  intros Hinv. rewrite scheduleNext_unfold.
  destruct (cleared_frame w) as (_ & Hn & _).
  destruct (scheduleNext_loop_frame (TinyQueue.length (queue (cleared w))) (cleared w))
    as (_ & _ & _ & [(-> & _) | (item & entry & _ & _ & _ & -> & _)]);
    rewrite cleared_timeouts by done.
  - by intros ?%elem_of_nil.
  - intros ->%list_elem_of_singleton. done.
Qed.

Lemma step_started e w w' t :
  timer_inv w → step e w = Some w' → t ∈ timeouts w' →
  t ∈ timeouts w ∨ t_start t = now w'.
Proof.
  intros Hinv. destruct e; cbn [step].
  - intros [= <-]. destruct (set_frame k v ttlMs w) as (_ & ->).
    unfold TempBox.set. cbn [timeouts call].
    destruct (if truthy ttlMs then _ else _) as [e|]; [|by left].
    destruct (truthy (Some e)); [|by left].
    intros Hin. right. apply scheduleNext_started in Hin; [done|].
    by eapply timer_inv_ext.
  - intros [= <-]. destruct (get_frame k w) as (-> & _). by left.
  - intros [= <-]. rewrite has_world. destruct (get_frame k w) as (-> & _). by left.
  - intros [= <-]. destruct (delete_frame k w) as (-> & _). by left.
  - intros [= <-]. destruct (clear_frame w Hinv) as (-> & _). by intros ?%elem_of_nil.
  - intros [= <-]. rewrite stop_timeouts by done. by intros ?%elem_of_nil.
  - destruct (0 <=? d); [|done]. intros [= <-]. by left.
  - intros Hfire Hin. apply fire_inv in Hfire as (t0 & _ & _ & _ & ->); [|done].
    right. destruct (on_timeout_frame t0 (set_timeouts [] w)) as (_ & -> & _).
    unfold TempBox.on_timeout in Hin. apply scheduleNext_started in Hin; [done|].
    by left.
Qed.

Lemma in_range_step E e w w' :
  timer_inv w → step e w = Some w' → in_range E w → in_range E w'.
Proof.
  intros Hinv Hstep (Hnow & Hall). pose proof (step_clock _ _ _ Hstep) as Hclock.
  split; [lia|]. apply Forall_forall. intros t Hin.
  destruct (step_started e w w' t Hinv Hstep Hin) as [Hold | ->]; [|lia].
  rewrite Forall_forall in Hall. by apply Hall.
Qed.

Lemma set_in_range k v ttl w :
  timer_inv w → ttl ≠ 0 → now w + ttl ≠ 0 → ttl <= TIMEOUT_MAX →
  in_range (now w + ttl) (TempBox.set k v (Some ttl) w).
Proof.
  intros Hinv Hnz Hnz' Httl. destruct (set_frame k v (Some ttl) w) as (_ & Hn).
  split; [lia|]. apply Forall_forall. intros t Hin.
  assert (t_start t = now w) as ->; [|lia].
  rewrite set_with_ttl in Hin by done. cbn [timeouts call] in Hin.
  apply scheduleNext_started in Hin; [done|]. by eapply timer_inv_ext.
Qed.

(** A waiting key whose expiry fits a timer either keeps waiting, or its
    timeout fires, and then its expiry is reached. *)
Lemma timed_step k v E base e w w' :
  quiet k e = true → step e w = Some w' → reachable w →
  waiting k v E base w → in_range E w →
  (waiting k v E base w' ∧ in_range E w') ∨ (fired k v E base w' ∧ E <= now w').
Proof.
  intros Hquiet Hstep Hreach Hw Hrange.
  pose proof (reachable_timer_inv w Hreach) as Hinv.
  destruct (waiting_step k v E base e w w' Hquiet Hstep Hw) as [Hw' | Hf].
  { left. split; [done|]. by eapply in_range_step. }
  right. split; [done|].
  destruct (quiet_expired_for k e w w' Hinv Hquiet Hstep)
    as [Heq | (h & t & -> & Ht & Hkey)].
  { exfalso. by eapply waiting_not_fired. }
  destruct (reachable_armed_head w Hreach t) as (item & _ & _ & Hexp & Hdelay & _).
  { rewrite Ht. apply list_elem_of_here. }
  destruct Hw as (_ & _ & _ & _ & t' & item' & Ht' & _ & _ & _ & Hmine).
  assert (t' = t) as -> by congruence.
  rewrite (Hmine Hkey) in Hexp. cbn in Hexp. injection Hexp as Hexp.
  rewrite <- Hexp in Hdelay.
  destruct Hrange as (_ & Hall). rewrite Ht in Hall.
  apply Forall_cons in Hall as (Hfits & _).
  destruct (due_bounds t E Hdelay) as (_ & Hdue). specialize (Hdue Hfits).
  pose proof (step_clock _ _ _ Hstep) as Hclock.
  cbn in Hstep. apply fire_inv in Hstep as (t0 & Ht0 & _ & Hnow & _); [|done].
  assert (t0 = t) as -> by congruence. lia.
Qed.

Lemma timed_run k v E base es : ∀ w w',
  Forall (λ e, quiet k e = true) es → run es w = Some w' → reachable w →
  (waiting k v E base w ∧ in_range E w) ∨ (fired k v E base w ∧ E <= now w) →
  (waiting k v E base w' ∧ in_range E w') ∨ (fired k v E base w' ∧ E <= now w').
Proof.
  induction es as [|e es IH]; intros w w' Hes; cbn [run].
  - by intros [= <-].
  - apply Forall_cons in Hes as (He & Hes).
    destruct (step e w) as [w1|] eqn:Hstep; [|done]. intros Hrun Hreach Hinv.
    eapply IH; [done | done | by eapply reachable_step |].
    destruct Hinv as [(Hw & Hrange) | (Hf & Hnow)].
    + by eapply timed_step.
    + right. split; [by eapply fired_step|].
      pose proof (step_clock _ _ _ Hstep). lia.
Qed.

(** Once [E] has passed, the event loop, left alone, runs the pending
    timeouts of a waiting store one after the other until the one of [k]
    has fired: a timeout registered for an item that is already overdue
    waits one millisecond. *)
Lemma waiting_fires k v E base (n : nat) : ∀ w,
  (length (queue w) ≤ n)%nat → reachable w → waiting k v E base w → E <= now w →
  ∃ hs w', (length hs ≤ n)%nat
           ∧ run (one_by_one hs) w = Some w'
           ∧ now w' = now w + Z.of_nat (length hs)
           ∧ fired k v E base w'.
Proof.
  induction n as [|n IH]; intros w Hlen Hreach Hw Hnow.
  { destruct Hw as (_ & _ & Hq & _). destruct (queue w); [|cbn in Hlen; lia].
    by apply elem_of_nil in Hq. }
  set (w1 := set_now (now w + 1) w).
  assert (step (Elapse 1) w = Some w1) as Hstep1 by done.
  pose proof (reachable_step _ _ _ Hreach Hstep1) as Hreach1.
  assert (waiting k v E base w1) as Hw1 by (by eapply waiting_ext).
  pose proof Hw as (_ & _ & Hq & Hheap & t & item & Ht & _ & Hpeek & _).
  pose proof (root_minimal _ _ Hheap Hpeek _ Hq) as Hmin. cbn in Hmin.
  destruct (reachable_armed_head w Hreach t)
    as (item' & Hpeek' & _ & _ & Hdelay & Hstart).
  { rewrite Ht. apply list_elem_of_here. }
  assert (item' = item) as -> by congruence.
  destruct (due_bounds t _ Hdelay) as (Hdue & _).
  assert (fire (handle t) w1
          = Some (TempBox.on_timeout t (set_timeouts [] w1))) as Hfire.
  { unfold fire. subst w1. cbn [timeouts set_now now]. rewrite Ht. cbn.
    rewrite decide_True by done. cbn.
    assert ((due t <=? now w + 1) = true) as -> by lia.
    by rewrite decide_False by tauto. }
  destruct (on_timeout_frame t (set_timeouts [] w1)) as (_ & Hn2 & _).
  destruct (waiting_step k v E base (Fire (handle t)) w1 _ eq_refl Hfire Hw1)
    as [Hw' | Hf'].
  - destruct (IH (TempBox.on_timeout t (set_timeouts [] w1)))
      as (hs & w' & Hhs & Hrun & Hn' & Hf).
    + unfold TempBox.on_timeout. etrans; [apply scheduleNext_length|]. cbn.
      rewrite length_pop. lia.
    + by eapply (reachable_step (Fire (handle t))).
    + done.
    + rewrite Hn2. cbn. lia.
    + exists (handle t :: hs), w'. split; [cbn; lia|].
      split; [|split; [|done]].
      * cbn [one_by_one flat_map app run]. rewrite Hstep1. cbn [step].
        by rewrite Hfire.
      * rewrite Hn', Hn2. cbn. lia.
  - exists [handle t]. eexists. split; [cbn; lia|]. split; [|split; [|done]].
    + cbn [one_by_one flat_map app run]. rewrite Hstep1. cbn [step].
      by rewrite Hfire.
    + rewrite Hn2. cbn. lia.
Qed.

(** A timeout registered for an item that is overdue is not run at once:
    [k] is set for 100 ms and then for 10 s, and [j] for 5 ms; when the
    timeout of [j] runs 10 s later, the one then registered for [k] asks
    for 0 ms and is due a millisecond later. *)
Example overdue_timeout_waits :
  ∃ w t, run [CallSet "k" JNull (Some 100); Elapse 0; CallSet "k" JNull (Some 10000);
              CallSet "j" JNull (Some 5); Elapse 10000; Fire 2%nat] (new 0) = Some w
         ∧ timeouts w = [t] ∧ t_key t = "k" ∧ t_delay t = 0
         ∧ now w = 10000 ∧ due t = 10001 ∧ fire (handle t) w = None.
Proof.
  do 2 eexists. split; [vm_compute; reflexivity|].
  split; [vm_compute; reflexivity|].
  split; [|split; [|split; [|split]]]; vm_compute; reflexivity.
Qed.

(** A TTL beyond [TIMEOUT_MAX] makes the timeout run after a millisecond:
    the key is expired some 24.8 days early. *)
Example long_ttl_fires_early :
  ∃ w, run [CallSet "k" JNull (Some (TIMEOUT_MAX + 1)); Elapse 1; Fire 0%nat]
         (new 0) = Some w
       ∧ now w = 1 ∧ expired w = [("k", JNull)] ∧ data w !! "k" = None.
Proof.
  eexists. split; [vm_compute; reflexivity|].
  split; [|split]; vm_compute; reflexivity.
Qed.

(** ** Overwriting a key with a longer TTL *)

(** C6. In any world a store can be in, with the clock not before the
    epoch: [set(k, v1, 100)] and, less than 100 ms later,
    [set(k, v2, 10000)]; afterwards time passes, timeouts fire and other
    keys are set, read and deleted, but [k] is not touched and the
    scheduler is not stopped.  With [E] the instant 10000 ms after the
    second [set]: either [onExpire] has not been called for [k] since, and
    then before [E] (so also 100 ms after the first [set]) [get(k)] still
    answers [v2], and from [E] on the event loop, left alone, runs the
    pending timeouts one millisecond apart, at most one per item of the
    queue, until [onExpire(k, v2)] is called; or [onExpire] has been
    called for [k] exactly once since, with [v2], the clock is at or past
    [E], and [get(k)] answers [undefined]. *)
Theorem overwrite_cancels_old_schedule (k : string) (v1 v2 : JsValue) (d : Z)
    (w0 w : World) (es : list Event) :
  reachable w0 → 0 <= now w0 → 0 <= d < 100 →
  Forall (λ e, quiet k e = true) es →
  run (CallSet k v1 (Some 100) :: Elapse d :: CallSet k v2 (Some 10000) :: es) w0
  = Some w →
  let E := now w0 + d + 10000 in
  (expired_for k w = expired_for k w0
   ∧ (now w < E → TempBox.get k w = (v2, w))
   ∧ (E <= now w →
      ∃ hs w', (length hs ≤ length (queue w))%nat
               ∧ run (one_by_one hs) w = Some w'
               ∧ now w' = now w + Z.of_nat (length hs)
               ∧ expired_for k w' = expired_for k w0 ++ [(k, v2)]))
  ∨ (expired_for k w = expired_for k w0 ++ [(k, v2)]
     ∧ E <= now w
     ∧ (TempBox.get k w).1 = JUndefined).
Proof.
  intros Hreach Hclock Hd Hes. cbn [run step].
  assert ((0 <=? d) = true) as -> by lia.
  set (w1 := set_now _ (TempBox.set k v1 (Some 100) w0)).
  intros Hrun. cbn zeta.
  destruct (set_frame k v1 (Some 100) w0) as (Hc1 & Hn1).
  assert (now w1 = now w0 + d) as Hnow1 by (subst w1; cbn [now set_now]; by rewrite Hn1).
  assert (reachable w1) as Hreach1.
  { eapply (reachable_step (Elapse d)); [eapply (reachable_step (CallSet _ _ _)) |];
      [done | done |]. cbn. by assert ((0 <=? d) = true) as -> by lia. }
  assert (expired_for k w1 = expired_for k w0) as Hbase.
  { eapply (expired_for_snoc k (OnSet k v1)); [|congruence]. subst w1. by cbn. }
  clearbody w1.
  pose proof (reachable_timer_inv w1 Hreach1) as Hinv1.
  assert (waiting k v2 (now w0 + d + 10000) (expired_for k w0)
            (TempBox.set k v2 (Some 10000) w1)) as Hw.
  { rewrite set_with_ttl by lia. rewrite Hnow1.
    eapply waiting_ext; [apply (waiting_rearm k v2 _ (expired_for k w0)) | | done..].
    - eapply timer_inv_ext; [| |exact Hinv1]; done.
    - cbn. apply push_spec. by apply reachable_heap_ordered.
    - cbn. destruct (push_spec (queue w1) (mkQueued (now w0 + d + 10000) k)) as (_ & ->);
        [by apply reachable_heap_ordered|]. apply list_elem_of_here.
    - cbn. apply lookup_insert_eq.
    - by rewrite <- Hbase.
    - eapply expired_for_snoc; [done|]. congruence. }
  assert (in_range (now w0 + d + 10000) (TempBox.set k v2 (Some 10000) w1)) as Hrange.
  { rewrite <- Hnow1. apply set_in_range; [done | lia | lia | done]. }
  assert (reachable (TempBox.set k v2 (Some 10000) w1)) as Hreach2
    by (by eapply (reachable_step (CallSet _ _ _))).
  destruct (timed_run k v2 _ _ es _ _ Hes Hrun Hreach2 (or_introl (conj Hw Hrange)))
    as [(Hwait & _) | ((Hexp & Hk & _) & Hdue)].
  - left. pose proof Hwait as (Hexp & Hk & _).
    split; [done|]. split.
    + intros Hearly. unfold TempBox.get. rewrite Hk. cbn.
      assert ((now w0 + d + 10000 <=? now w) = false) as -> by lia.
      by rewrite andb_false_r.
    + intros Hdue.
      destruct (waiting_fires k v2 (now w0 + d + 10000) (expired_for k w0)
                  (length (queue w)) w) as (hs & w' & Hhs & Hfire & Hn' & Hf);
        [done | by eapply reachable_run | done | done |].
      exists hs, w'. do 3 (split; [done|]). by destruct Hf as (-> & _).
  - right. split; [done|]. split; [done|]. unfold TempBox.get. by rewrite Hk.
Qed.

Lemma overwrite_cancels_old_schedule_witness :
  ∃ w, run [CallSet "k" (JStr "v1") (Some 100); Elapse 50;
            CallSet "k" (JStr "v2") (Some 10000); CallSet "j" JNull (Some 70);
            Elapse 100; Fire 2%nat; Elapse 9900; Fire 3%nat]
         (new 0) = Some w
       ∧ expired_for "k" w = [("k", JStr "v2")].
Proof.
  eexists. split; [vm_compute; reflexivity|].
  match goal with
  | |- expired_for _ ?w = _ =>
      assert (run [CallSet "k" (JStr "v1") (Some 100); Elapse 50;
                   CallSet "k" (JStr "v2") (Some 10000); CallSet "j" JNull (Some 70);
                   Elapse 100; Fire 2%nat; Elapse 9900; Fire 3%nat] (new 0)
              = Some w) as Hrun by (vm_compute; reflexivity)
  end.
  destruct (overwrite_cancels_old_schedule "k" (JStr "v1") (JStr "v2") 50 (new 0) _
              [CallSet "j" JNull (Some 70); Elapse 100; Fire 2%nat; Elapse 9900;
               Fire 3%nat]
              (ex_intro _ 0 (ex_intro _ [] eq_refl)) ltac:(done) ltac:(lia)
              ltac:(repeat constructor) Hrun)
    as [(Hexp & _) | (Hexp & _)].
  - vm_compute in Hexp. discriminate.
  - exact Hexp.
Defined.


(** ** A timeout that outlives its entry

    The arrow function registered by [_scheduleNext] expires the key and
    entry it closed over without looking at the table again, and [delete],
    [get] and a [set] without TTL leave the registration pending. *)

(** C1 on the code: [set("k", "v", 100)], [delete("k")] after 50 ms; the
    timeout registered by the [set] is still pending, fires at 100 ms and
    calls [onExpire("k", "v")]. *)
Example delete_then_timeout_calls_onExpire :
  ∃ w, run [CallSet "k" (JStr "v") (Some 100); Elapse 50; CallDelete "k";
            Elapse 50; Fire 0%nat] (new 0) = Some w
       ∧ calls w = [OnSet "k" (JStr "v"); OnDelete "k"; OnExpire "k" (JStr "v")].
Proof. eexists. split; vm_compute; reflexivity. Qed.

(** C2 on the code: [set("k", "v1", 100)] and then [set("k", "v2")] without
    TTL; the timeout of the first [set] fires at 100 ms, removes the entry
    of the second and calls [onExpire("k", "v1")]: [get] and [has] no
    longer find the key. *)
Example timeout_removes_entry_without_ttl :
  ∃ w, run [CallSet "k" (JStr "v1") (Some 100); CallSet "k" (JStr "v2") None;
            Elapse 100; Fire 0%nat] (new 0) = Some w
       ∧ (TempBox.get "k" w).1 = JUndefined
       ∧ (TempBox.has "k" w).1 = false
       ∧ expired w = [("k", JStr "v1")].
Proof. eexists. split; [|split; [|split]]; vm_compute; reflexivity. Qed.

(** C3 on the code: [set("k", "v", 100)]; at 100 ms a [get("k")] runs before
    the event loop gets to the timeout, expires the key and calls
    [onExpire]; the timeout then fires and calls [onExpire("k", "v")] a
    second time. *)
Example lazy_expiry_then_timeout_calls_onExpire_twice :
  ∃ w, run [CallSet "k" (JStr "v") (Some 100); Elapse 100; CallGet "k";
            Fire 0%nat] (new 0) = Some w
       ∧ expired w = [("k", JStr "v"); ("k", JStr "v")].
Proof. eexists. split; vm_compute; reflexivity. Qed.

(** * Further properties of the store *)

(** ** What [clear] leaves *)

(** X1. [clear()] on any store a program can have reached: the table and
    the queue are empty, no timeout is pending and [this.timer] is [null];
    [onClear] is the one callback called; afterwards [get] of any key
    answers [undefined] without changing anything, and no timeout can
    fire. *)
Theorem clear_forgets_everything (w : World) :
  reachable w →
  data (TempBox.clear w) = ∅
  ∧ queue (TempBox.clear w) = []
  ∧ timeouts (TempBox.clear w) = []
  ∧ timer (TempBox.clear w) = None
  ∧ calls (TempBox.clear w) = calls w ++ [OnClear]
  ∧ (∀ k, TempBox.get k (TempBox.clear w) = (JUndefined, TempBox.clear w))
  ∧ (∀ h, fire h (TempBox.clear w) = None).
Proof.
  intros Hreach.
  destruct (clear_frame w (reachable_timer_inv w Hreach)) as (Ht & Htimer & _ & Hc).
  split; [apply clear_data|]. split; [apply clear_queue|].
  split; [done|]. split; [done|]. split; [done|]. split.
  - intros k. unfold TempBox.get. by rewrite clear_data, lookup_empty.
  - intros h. unfold fire. by rewrite Ht.
Qed.

Lemma clear_forgets_everything_witness :
  ∃ w, run quiet_day (new 0) = Some w
       ∧ timeouts w ≠ [] ∧ timeouts (TempBox.clear w) = [].
Proof.
  eexists. split; [vm_compute; reflexivity|]. split; [done|].
  refine (proj1 (proj2 (proj2 (clear_forgets_everything _ _)))).
  exists 0, quiet_day. vm_compute. reflexivity.
Defined.

(** X2. [set(k, v, ttl)] writes the entry of [k] and nothing else in the
    table; the entry carries [now + ttl] for a truthy TTL and [null]
    otherwise; and [onSet(k, v)] is the one callback it calls: the
    reconcile it runs never calls [onExpire] and removes no key. *)
Theorem set_writes_one_entry (k : string) (v : JsValue) (ttlMs : option Z)
    (w : World) :
  data (TempBox.set k v ttlMs w)
  = <[k := mkEntry v (match ttlMs with
                      | Some ttl => if ttl =? 0 then None else Some (now w + ttl)
                      | None => None
                      end)]> (data w)
  ∧ calls (TempBox.set k v ttlMs w) = calls w ++ [OnSet k v]
  ∧ now (TempBox.set k v ttlMs w) = now w.
Proof.
  destruct (set_frame k v ttlMs w) as (Hc & Hn). split; [|done].
  unfold TempBox.set. cbn [data call].
  assert ((if truthy ttlMs then (λ ttl, now w + ttl) <$> ttlMs else None)
          = match ttlMs with
            | Some ttl => if ttl =? 0 then None else Some (now w + ttl)
            | None => None
            end) as ->.
  { destruct ttlMs as [ttl|]; [|done]. cbn. by destruct (ttl =? 0). }
  destruct (match ttlMs with Some _ => _ | None => _ end) as [e|]; [|done].
  destruct (truthy (Some e)); [|done].
  match goal with |- context [TempBox._scheduleNext ?x] =>
    destruct (scheduleNext_frame x) as (-> & _) end.
  done.
Qed.

(** X3. What [set] stores, [get] gives back: right after [set(k, v)] or
    [set(k, v, ttl)] with [ttl >= 0], [get(k)] answers [v] and changes
    nothing; and the answer of [get] for any other key is what it was
    before the [set]. *)
Theorem set_then_get (k : string) (v : JsValue) (ttlMs : option Z) (w : World) :
  match ttlMs with Some ttl => 0 <= ttl | None => True end →
  TempBox.get k (TempBox.set k v ttlMs w) = (v, TempBox.set k v ttlMs w)
  ∧ ∀ k', k' ≠ k →
      (TempBox.get k' (TempBox.set k v ttlMs w)).1 = (TempBox.get k' w).1.
Proof.
  intros Httl. destruct (set_frame k v ttlMs w) as (_ & Hn). split.
  - unfold TempBox.get. rewrite set_lookup, Hn. cbn [expiresAt value].
    destruct ttlMs as [ttl|]; [|done]. cbn.
    destruct (ttl =? 0) eqn:Hz; [done|]. cbn.
    destruct (now w + ttl =? 0); [done|]. cbn.
    by assert ((now w + ttl <=? now w) = false) as -> by lia.
  - intros k' Hne. unfold TempBox.get. rewrite set_lookup_ne, Hn by done.
    destruct (data w !! k') as [entry|]; [|done].
    destruct (expiresAt entry) as [e|]; [|done].
    by destruct (truthy (Some e) && (e <=? now w)).
Qed.

Lemma set_then_get_witness :
  TempBox.get "a" (TempBox.set "a" (JNum 7) (Some 0) (new 5))
  = (JNum 7, TempBox.set "a" (JNum 7) (Some 0) (new 5)).
Proof. refine (proj1 (set_then_get "a" (JNum 7) (Some 0) (new 5) _)). done. Defined.

(** X4. Reading twice is reading once: a second [get(k)] at the same
    instant gives the answer of the first and changes nothing more; in
    particular a lazy expiry calls [onExpire] once, not at every read. *)
Theorem get_twice (k : string) (w : World) :
  TempBox.get k (TempBox.get k w).2 = ((TempBox.get k w).1, (TempBox.get k w).2)
  ∧ TempBox.has k (TempBox.has k w).2 = ((TempBox.has k w).1, (TempBox.has k w).2).
Proof.
  assert (TempBox.get k (TempBox.get k w).2
          = ((TempBox.get k w).1, (TempBox.get k w).2)) as Hget.
  { unfold TempBox.get at 2 3 4.
    destruct (data w !! k) as [entry|] eqn:Hentry.
    2:{ cbn. unfold TempBox.get. by rewrite Hentry. }
    destruct (expiresAt entry) as [e|] eqn:He.
    2:{ cbn. unfold TempBox.get. by rewrite Hentry, He. }
    destruct (truthy (Some e) && (e <=? now w)) eqn:Hdue; cbn.
    - unfold TempBox.get. cbn. by rewrite lookup_delete_eq.
    - unfold TempBox.get. by rewrite Hentry, He, Hdue. }
  split; [done|].
  rewrite has_world. unfold TempBox.has at 1. rewrite Hget. by rewrite has_answer.
Qed.

(** X5. A key that is not in the table stays out until it is set: whatever
    happens except a [set] of [k], afterwards [get(k)] answers
    [undefined], [has(k)] and [delete(k)] answer [false], and none of them
    calls a callback or changes anything.  This holds after a [delete], a
    [clear], and an expiry alike. *)
Theorem absent_until_set (k : string) (w w' : World) (es : list Event) :
  data w !! k = None →
  Forall (λ e, sets_key k e = false) es →
  run es w = Some w' →
  TempBox.get k w' = (JUndefined, w')
  ∧ TempBox.has k w' = (false, w')
  ∧ TempBox.delete k w' = (false, w').
Proof.
  intros Hk Hes Hrun.
  assert (data w' !! k = None) as Hk'.
  { destruct (run_only_removes k es w w' Hes Hrun) as [?|Hsame]; congruence. }
  unfold TempBox.has, TempBox.get, TempBox.delete. by rewrite Hk'.
Qed.

Lemma absent_until_set_witness :
  ∃ w', run [CallSet "a" (JStr "1") (Some 300); Elapse 300; Fire 0%nat] (new 0)
        = Some w'
        ∧ TempBox.get "b" w' = (JUndefined, w').
Proof.
  eexists. split; [vm_compute; reflexivity|].
  refine (proj1 (absent_until_set "b" (new 0) _
                   [CallSet "a" (JStr "1") (Some 300); Elapse 300; Fire 0%nat] _ _ _)).
  - done.
  - repeat constructor.
  - vm_compute. reflexivity.
Defined.

(** ** What a pending timeout is registered for *)

(** X6. A timeout fires for the head of the queue, and not early as long
    as the time it had to wait fits a timer: when the event loop runs a
    timeout of a store, it is the one pending timeout; it was registered
    for the first item of the queue, with the time then left until that
    item's [expiresAt] as its delay (0 if none was left); the entry it
    closes over carries that [expiresAt]; if the delay was at most
    [TIMEOUT_MAX], that [expiresAt] is at or before now; and its firing
    removes that key from the table and calls [onExpire] once, with the
    key and the value it closed over. *)
Theorem timeout_fires_on_time (h : nat) (w w' : World) :
  reachable w → fire h w = Some w' →
  ∃ t item,
    timeouts w = [t] ∧ handle t = h
    ∧ TinyQueue.peek (queue w) = Some item
    ∧ t_key t = qv_key item
    ∧ expiresAt (t_entry t) = Some (qv_expiresAt item)
    ∧ t_delay t = Z.max 0 (qv_expiresAt item - t_start t)
    ∧ (t_delay t <= TIMEOUT_MAX → qv_expiresAt item <= now w)
    ∧ data w' = base.delete (t_key t) (data w)
    ∧ calls w' = calls w ++ [OnExpire (t_key t) (value (t_entry t))].
Proof.
  intros Hreach Hfire.
  apply fire_inv in Hfire as (t & Ht & Hh & Hdue & ->);
    [|by apply reachable_timer_inv].
  destruct (reachable_armed_head w Hreach t)
    as (item & Hpeek & Hkey & Hexp & Hdelay & Hstart).
  { rewrite Ht. apply list_elem_of_here. }
  destruct (on_timeout_frame t (set_timeouts [] w)) as (Hd & _ & Hc).
  exists t, item. do 6 (split; [done|]). split; [|done].
  intros Hfits. destruct (due_bounds t _ Hdelay) as (_ & Hle). lia.
Qed.

Lemma timeout_fires_on_time_witness :
  ∃ w w', run quiet_day (new 0) = Some w
          ∧ fire 0 (set_now 300 w) = Some w'
          ∧ calls w' = calls w ++ [OnExpire "a" (JStr "1")].
Proof.
  eexists. eexists. split; [vm_compute; reflexivity|].
  split; [vm_compute; reflexivity|].
  match goal with
  | |- calls ?w' = calls ?w ++ _ =>
      assert (run (quiet_day ++ [Elapse 200]) (new 0) = Some (set_now 300 w)) as Hrun
        by (vm_compute; reflexivity);
      assert (fire 0 (set_now 300 w) = Some w') as Hfire by (vm_compute; reflexivity)
  end.
  destruct (timeout_fires_on_time 0 _ _ (ex_intro _ 0 (ex_intro _ _ Hrun)) Hfire)
    as (t & item & Ht & _ & _ & _ & _ & _ & _ & _ & Hc).
  injection Ht as <-. exact Hc.
Defined.

(** ** The queue does not outgrow the TTL sets *)

Lemma ttl_sets_cons e es :
  ttl_sets (e :: es) = ((if ttl_set e then 1 else 0) + ttl_sets es)%nat.
Proof.
  unfold ttl_sets. rewrite filter_cons. by destruct (ttl_set e).
Qed.

Lemma step_queue_length e w w' :
  step e w = Some w' →
  (length (queue w') ≤ length (queue w) + (if ttl_set e then 1 else 0))%nat.
Proof.
  destruct e; cbn [step ttl_set].
  - intros [= <-]. unfold TempBox.set. cbn [queue call].
    destruct (truthy ttlMs) eqn:Httl; [|cbn; lia].
    destruct ((λ ttl, now w + ttl) <$> ttlMs) as [e|]; [|cbn; lia].
    destruct (truthy (Some e)); [|cbn; lia].
    etrans; [apply scheduleNext_length|]. cbn. rewrite length_push. lia.
  - intros [= <-]. destruct (get_frame k w) as (_ & _ & -> & _). lia.
  - intros [= <-]. rewrite has_world.
    destruct (get_frame k w) as (_ & _ & -> & _). lia.
  - intros [= <-]. destruct (delete_frame k w) as (_ & _ & -> & _). lia.
  - intros [= <-]. rewrite clear_queue. cbn. lia.
  - intros [= <-]. destruct (stop_frame w) as (_ & -> & _). lia.
  - destruct (0 <=? d); [|done]. intros [= <-]. cbn. lia.
  - unfold fire. destruct (list_find _ _) as [[i t]|]; [|done].
    destruct (due t <=? now w); [|done]. intros [= <-].
    unfold TempBox.on_timeout. etrans; [apply scheduleNext_length|].
    cbn. rewrite length_pop. lia.
Qed.

Lemma run_queue_length es : ∀ w w',
  run es w = Some w' → (length (queue w') ≤ length (queue w) + ttl_sets es)%nat.
Proof.
  induction es as [|e es IH]; intros w w'; cbn [run].
  - intros [= <-]. lia.
  - destruct (step e w) as [w1|] eqn:Hstep; [|done]. intros Hrun.
    apply step_queue_length in Hstep. apply IH in Hrun.
    rewrite ttl_sets_cons. lia.
Qed.

(** X7. The queue holds at most one item per call of [set] with a truthy
    TTL made since the store was constructed: stale items pile up no
    faster than that, whatever else is called and whenever timeouts
    fire. *)
Theorem queue_bounded_by_ttl_sets (start : Z) (es : list Event) (w : World) :
  run es (new start) = Some w → (length (queue w) ≤ ttl_sets es)%nat.
Proof. intros Hrun. by apply run_queue_length in Hrun. Qed.

Lemma queue_bounded_by_ttl_sets_witness :
  ∃ w, run busy_day (new 0) = Some w ∧ (length (queue w) ≤ 3)%nat.
Proof.
  eexists. split; [vm_compute; reflexivity|].
  apply (queue_bounded_by_ttl_sets 0 busy_day). vm_compute. reflexivity.
Defined.

(** ** After [stop()] *)

Lemma idle_step e w w' :
  timeouts w = [] → ttl_set e = false → step e w = Some w' →
  timeouts w' = [] ∧ ∀ h, e ≠ Fire h.
Proof.
  intros Ht Httl. destruct e; cbn [step ttl_set] in *.
  - intros [= <-]. split; [|done]. unfold TempBox.set. rewrite Httl. by cbn.
  - intros [= <-]. split; [|done]. by destruct (get_frame k w) as (-> & _).
  - intros [= <-]. split; [|done]. rewrite has_world.
    by destruct (get_frame k w) as (-> & _).
  - intros [= <-]. split; [|done]. by destruct (delete_frame k w) as (-> & _).
  - intros [= <-]. split; [|done]. apply clear_frame. by left.
  - intros [= <-]. split; [|done]. apply stop_timeouts. by left.
  - destruct (0 <=? d); [|done]. intros [= <-]. done.
  - unfold fire. by rewrite Ht.
Qed.

(** X8. [stop()] switches proactive expiry off until the next [set] with
    a TTL: after [stop()], as long as no [set] with a truthy TTL is
    called, no timeout is pending and none fires, whatever else happens
    and however much time passes. *)
Theorem stop_disables_timeouts (w w' : World) (es : list Event) :
  reachable w →
  Forall (λ e, ttl_set e = false) es →
  run es (TempBox.stop w) = Some w' →
  timeouts w' = [] ∧ Forall (λ e, ∀ h, e ≠ Fire h) es.
Proof.
  intros Hreach Hes.
  pose proof (stop_timeouts w (reachable_timer_inv w Hreach)) as Ht.
  revert Ht. generalize (TempBox.stop w). clear Hreach w.
  induction Hes as [|e es He Hes IH]; intros w Ht; cbn [run].
  - by intros [= <-].
  - destruct (step e w) as [w1|] eqn:Hstep; [|done]. intros Hrun.
    destruct (idle_step e w w1 Ht He Hstep) as (Ht1 & Hne).
    destruct (IH w1 Ht1 Hrun) as (Ht' & Hall). split; [done|]. by constructor.
Qed.

Lemma stop_disables_timeouts_witness :
  ∃ w w', run quiet_day (new 0) = Some w
          ∧ run [Elapse 1000; CallGet "a"] (TempBox.stop w) = Some w'
          ∧ timeouts w' = [].
Proof.
  eexists. eexists. split; [vm_compute; reflexivity|].
  split; [vm_compute; reflexivity|].
  refine (proj1 (stop_disables_timeouts _ _ [Elapse 1000; CallGet "a"]
                   (ex_intro _ 0 (ex_intro _ quiet_day eq_refl)) _ eq_refl)).
  repeat constructor.
Defined.

(** ** A key set with a TTL *)

Lemma set_waiting k v ttl w :
  reachable w → ttl ≠ 0 → now w + ttl ≠ 0 →
  waiting k v (now w + ttl) (expired_for k w) (TempBox.set k v (Some ttl) w).
Proof.
  intros Hreach Httl Hnz. rewrite set_with_ttl by done.
  eapply waiting_ext;
    [apply (waiting_rearm k v _ (expired_for k w)) | | done..].
  - eapply timer_inv_ext; [| |by apply reachable_timer_inv]; done.
  - cbn. apply push_spec. by apply reachable_heap_ordered.
  - cbn. destruct (push_spec (queue w) (mkQueued (now w + ttl) k)) as (_ & ->);
      [by apply reachable_heap_ordered|]. apply list_elem_of_here.
  - cbn. apply lookup_insert_eq.
  - done.
  - eapply expired_for_snoc; [done|]. congruence.
Qed.

(** X9. A [set] with a TTL that counts ([ttl] and [now + ttl] are both
    other than 0; the code takes either for no TTL) always leaves the
    scheduler armed, also after [stop()]: exactly one timeout is pending,
    [this.timer] is its handle, it is registered at the time of the call,
    and it is due no later than the new key expires, or one millisecond
    from now if that is later. *)
Theorem ttl_set_arms (k : string) (v : JsValue) (ttl : Z) (w : World) :
  reachable w → ttl ≠ 0 → now w + ttl ≠ 0 →
  ∃ t, timeouts (TempBox.set k v (Some ttl) w) = [t]
       ∧ timer (TempBox.set k v (Some ttl) w) = Some (handle t)
       ∧ t_start t = now w
       ∧ due t <= Z.max (now w + 1) (now w + ttl).
Proof.
  intros Hreach Httl Hnz.
  destruct (set_waiting k v ttl w Hreach Httl Hnz)
    as (_ & _ & Hq & Hheap & t & item & Ht & Htimer & Hpeek & _).
  pose proof (root_minimal _ _ Hheap Hpeek _ Hq) as Hmin. cbn in Hmin.
  assert (reachable (TempBox.set k v (Some ttl) w)) as Hreach'
    by (by eapply (reachable_step (CallSet k v (Some ttl)))).
  destruct (reachable_armed_head _ Hreach' t) as (item' & Hpeek' & _ & _ & Hdelay & _).
  { rewrite Ht. apply list_elem_of_here. }
  assert (item' = item) as -> by congruence.
  assert (t_start t = now w) as Hstart.
  { assert (t ∈ timeouts (TempBox.set k v (Some ttl) w)) as Hin
      by (rewrite Ht; apply list_elem_of_here).
    rewrite set_with_ttl in Hin by done. cbn [timeouts call] in Hin.
    apply scheduleNext_started in Hin; [done|].
    eapply timer_inv_ext; [| |exact (reachable_timer_inv w Hreach)]; done. }
  destruct (due_bounds t _ Hdelay) as (Hdue & _).
  exists t. do 3 (split; [done|]). lia.
Qed.

Lemma ttl_set_arms_witness :
  ∃ w, run (quiet_day ++ [CallStop]) (new 0) = Some w
       ∧ timeouts w = []
       ∧ ∃ t, timeouts (TempBox.set "c" JNull (Some 50) w) = [t]
              ∧ timer (TempBox.set "c" JNull (Some 50) w) = Some (handle t)
              ∧ t_start t = now w
              ∧ due t <= Z.max (now w + 1) (now w + 50).
Proof.
  eexists. split; [vm_compute; reflexivity|]. split; [done|].
  apply ttl_set_arms; [|done|done].
  exists 0, (quiet_day ++ [CallStop]). vm_compute. reflexivity.
Defined.

Lemma scheduleNext_due_after k v E x :
  timer_inv x → data x !! k = Some (mkEntry v (Some E)) →
  E - now x <= TIMEOUT_MAX →
  due_after k E (TempBox._scheduleNext x).
Proof.
  intros Hinv Hk Hfits. unfold due_after. rewrite scheduleNext_unfold.
  destruct (cleared_frame x) as (Hd & Hn & _).
  destruct (scheduleNext_loop_frame (TinyQueue.length (queue (cleared x))) (cleared x))
    as (_ & _ & _ & [(-> & _) | (item & entry & Hentry & Hexp & _ & -> & _)]);
    rewrite cleared_timeouts by done; [done|].
  constructor; [|done]. intros Hkey. cbn in Hkey.
  rewrite Hkey, Hd, Hk in Hentry. injection Hentry as <-.
  cbn in Hexp. injection Hexp as Hexp.
  match goal with |- _ <= due ?t => destruct (due_bounds t E) as (_ & Hle) end.
  { cbn. by rewrite Hexp. }
  apply Hle. cbn. rewrite Hn. lia.
Qed.

Lemma kept_step k v E e w w' :
  keeps k e = true → step e w = Some w' → now w < E → E - now w <= TIMEOUT_MAX →
  data w !! k = Some (mkEntry v (Some E)) ∧ timer_inv w ∧ due_after k E w →
  data w' !! k = Some (mkEntry v (Some E)) ∧ timer_inv w' ∧ due_after k E w'.
Proof.
  intros Hkeeps Hstep Hnow Hfits (Hk & Hinv & Hdue).
  split; [|split; [by eapply step_timer_inv|]].
  - destruct e as [j v' ttlMs|j|j|j| | |d|h]; try discriminate; cbn in Hkeeps, Hstep;
      try apply bool_decide_eq_true in Hkeeps.
    + injection Hstep as <-. by rewrite set_lookup_ne.
    + injection Hstep as <-. destruct (decide (j = k)) as [->|Hne];
        [|by rewrite get_lookup_ne].
      unfold TempBox.get. rewrite Hk. cbn.
      assert ((E <=? now w) = false) as -> by lia. by rewrite andb_false_r.
    + injection Hstep as <-. rewrite has_world.
      destruct (decide (j = k)) as [->|Hne]; [|by rewrite get_lookup_ne].
      unfold TempBox.get. rewrite Hk. cbn.
      assert ((E <=? now w) = false) as -> by lia. by rewrite andb_false_r.
    + injection Hstep as <-. by rewrite delete_lookup_ne.
    + injection Hstep as <-. by destruct (stop_frame w) as (-> & _).
    + destruct (0 <=? d); [|done]. by injection Hstep as <-.
    + apply fire_inv in Hstep as (t & Ht & _ & Hfire & ->); [|done].
      destruct (on_timeout_frame t (set_timeouts [] w)) as (-> & _). cbn.
      rewrite lookup_delete_ne; [done|]. intros Hkey.
      unfold due_after in Hdue. rewrite Ht in Hdue.
      apply Forall_cons in Hdue as (Hdue & _). specialize (Hdue Hkey). lia.
  - destruct e as [j v' ttlMs|j|j|j| | |d|h]; try discriminate; cbn in Hkeeps, Hstep;
      try apply bool_decide_eq_true in Hkeeps; unfold due_after.
    + injection Hstep as <-. unfold TempBox.set. cbn [timeouts call].
      destruct (if truthy ttlMs then _ else _) as [e|]; [|done].
      destruct (truthy (Some e)); [|done].
      apply (scheduleNext_due_after k v E); [by eapply timer_inv_ext| |done].
      cbn. by rewrite lookup_insert_ne.
    + injection Hstep as <-. by destruct (get_frame j w) as (-> & _).
    + injection Hstep as <-. rewrite has_world.
      by destruct (get_frame j w) as (-> & _).
    + injection Hstep as <-. by destruct (delete_frame j w) as (-> & _).
    + injection Hstep as <-. by rewrite stop_timeouts.
    + destruct (0 <=? d); [|done]. by injection Hstep as <-.
    + apply fire_inv in Hstep as (t & Ht & _ & Hfire & ->); [|done].
      unfold TempBox.on_timeout.
      apply (scheduleNext_due_after k v E); [by left| |done]. cbn.
      rewrite lookup_delete_ne; [done|]. intros Hkey.
      unfold due_after in Hdue. rewrite Ht in Hdue.
      apply Forall_cons in Hdue as (Hdue & _). specialize (Hdue Hkey). lia.
Qed.

Lemma kept_run k v E es : ∀ w w',
  Forall (λ e, keeps k e = true) es → run es w = Some w' → now w' < E →
  E - now w <= TIMEOUT_MAX →
  data w !! k = Some (mkEntry v (Some E)) ∧ timer_inv w ∧ due_after k E w →
  data w' !! k = Some (mkEntry v (Some E)).
Proof.
  induction es as [|e es IH]; intros w w' Hes; cbn [run].
  - by intros [= <-] _ _ (? & _).
  - apply Forall_cons in Hes as (He & Hes).
    destruct (step e w) as [w1|] eqn:Hstep; [|done]. intros Hrun Hnow Hfits Hinv.
    pose proof (step_clock _ _ _ Hstep). pose proof (run_clock _ _ _ Hrun).
    eapply IH; [done | done | done | lia |].
    eapply kept_step; [done | done | lia | done | done].
Qed.

(** X10. Before its TTL has elapsed a key is there.  For a TTL of at most
    [TIMEOUT_MAX] that counts ([ttl] and [now + ttl] both other than 0):
    after [set(k, v, ttl)] on any store a program can have reached,
    whatever happens next except a [set] or [delete] of [k] or a [clear] —
    reads of any key, calls on other keys, [stop], time passing, timeouts
    firing — at any instant before [now + ttl] [get(k)] answers [v] and
    changes nothing, and [has(k)] answers whether [v] is not
    [undefined]. *)
Theorem value_kept_until_expiry (k : string) (v : JsValue) (ttl : Z)
    (w0 w : World) (es : list Event) :
  reachable w0 → ttl ≠ 0 → now w0 + ttl ≠ 0 → ttl <= TIMEOUT_MAX →
  Forall (λ e, keeps k e = true) es →
  run es (TempBox.set k v (Some ttl) w0) = Some w →
  now w < now w0 + ttl →
  TempBox.get k w = (v, w)
  ∧ TempBox.has k w = (bool_decide (v ≠ JUndefined), w).
Proof.
  intros Hreach Httl Hnz Hfits Hes Hrun Hnow.
  destruct (set_frame k v (Some ttl) w0) as (_ & Hn).
  assert (data w !! k = Some (mkEntry v (Some (now w0 + ttl)))) as Hk.
  { eapply (kept_run k v _ es); [done | done | done | lia |].
    split; [|split].
    - rewrite set_lookup. cbn.
      by assert (negb (ttl =? 0) = true) as -> by (apply negb_true_iff; lia).
    - apply set_timer_inv. by apply reachable_timer_inv.
    - rewrite set_with_ttl by done. unfold due_after. cbn [timeouts call].
      apply (scheduleNext_due_after k v).
      + eapply timer_inv_ext; [| |by apply reachable_timer_inv]; done.
      + cbn. apply lookup_insert_eq.
      + cbn. lia. }
  assert (TempBox.get k w = (v, w)) as Hget.
  { unfold TempBox.get. rewrite Hk. cbn.
    assert ((now w0 + ttl <=? now w) = false) as -> by lia.
    by rewrite andb_false_r. }
  split; [done|]. unfold TempBox.has. by rewrite Hget.
Qed.

Lemma value_kept_until_expiry_witness :
  ∃ w, run [CallSet "b" JNull (Some 10); Elapse 10; Fire 1%nat; CallHas "a";
            CallStop; Elapse 89]
         (TempBox.set "a" (JStr "1") (Some 100) (new 0)) = Some w
       ∧ TempBox.get "a" w = (JStr "1", w).
Proof.
  eexists. split; [vm_compute; reflexivity|].
  refine (proj1 (value_kept_until_expiry "a" (JStr "1") 100 (new 0) _
                   [CallSet "b" JNull (Some 10); Elapse 10; Fire 1%nat; CallHas "a";
                    CallStop; Elapse 89] _ _ _ _ _ _ _)).
  - by exists 0, [].
  - done.
  - done.
  - done.
  - repeat constructor.
  - vm_compute. reflexivity.
  - vm_compute. reflexivity.
Defined.

(** X11. A key set with a TTL expires proactively, once.  For a TTL of at
    most [TIMEOUT_MAX] that counts ([ttl] and [now + ttl] both other than
    0): after [set(k, v, ttl)] on any store a program can have reached,
    while time passes, timeouts fire and other keys are set, read and
    deleted, either [onExpire] has not been called for [k] since, and
    then, once [now + ttl] is reached, the event loop, left alone, runs
    the pending timeouts one millisecond apart, at most one per item of
    the queue, until [onExpire(k, v)] is called; or it has been called for
    [k] exactly once since, with [v], not before [now + ttl], and [get(k)]
    answers [undefined]. *)
Theorem key_expires_once (k : string) (v : JsValue) (ttl : Z)
    (w0 w : World) (es : list Event) :
  reachable w0 → ttl ≠ 0 → now w0 + ttl ≠ 0 → ttl <= TIMEOUT_MAX →
  Forall (λ e, quiet k e = true) es →
  run es (TempBox.set k v (Some ttl) w0) = Some w →
  (expired_for k w = expired_for k w0
   ∧ (now w0 + ttl <= now w →
      ∃ hs w', (length hs ≤ length (queue w))%nat
               ∧ run (one_by_one hs) w = Some w'
               ∧ now w' = now w + Z.of_nat (length hs)
               ∧ expired_for k w' = expired_for k w0 ++ [(k, v)]))
  ∨ (expired_for k w = expired_for k w0 ++ [(k, v)]
     ∧ now w0 + ttl <= now w
     ∧ TempBox.get k w = (JUndefined, w)).
Proof.
  intros Hreach Httl Hnz Hfits Hes Hrun.
  pose proof (set_waiting k v ttl w0 Hreach Httl Hnz) as Hw.
  pose proof (set_in_range k v ttl w0 (reachable_timer_inv w0 Hreach) Httl Hnz Hfits)
    as Hrange.
  assert (reachable (TempBox.set k v (Some ttl) w0)) as Hreach'
    by (by eapply (reachable_step (CallSet k v (Some ttl)))).
  destruct (timed_run k v _ _ es _ _ Hes Hrun Hreach' (or_introl (conj Hw Hrange)))
    as [(Hwait & _) | ((Hexp & Hk & _) & Hdue)].
  - left. split; [by destruct Hwait|]. intros Hdue.
    destruct (waiting_fires k v (now w0 + ttl) (expired_for k w0)
                (length (queue w)) w) as (hs & w' & Hhs & Hfire & Hn' & Hf);
      [done | by eapply reachable_run | done | done |].
    exists hs, w'. do 3 (split; [done|]). by destruct Hf.
  - right. split; [done|]. split; [done|]. unfold TempBox.get. by rewrite Hk.
Qed.

Lemma key_expires_once_witness :
  ∃ w, run [CallSet "b" JNull (Some 10); Elapse 100; Fire 1%nat;
            Elapse 1; Fire 2%nat]
         (TempBox.set "a" (JStr "1") (Some 100) (new 0)) = Some w
       ∧ expired_for "a" w = [("a", JStr "1")].
Proof.
  eexists. split; [vm_compute; reflexivity|].
  match goal with
  | |- expired_for _ ?w = _ =>
      assert (run [CallSet "b" JNull (Some 10); Elapse 100; Fire 1%nat;
            Elapse 1; Fire 2%nat]
                (TempBox.set "a" (JStr "1") (Some 100) (new 0)) = Some w) as Hrun
        by (vm_compute; reflexivity)
  end.
  destruct (key_expires_once "a" (JStr "1") 100 (new 0) _
              [CallSet "b" JNull (Some 10); Elapse 100; Fire 1%nat;
            Elapse 1; Fire 2%nat]
              (ex_intro _ 0 (ex_intro _ [] eq_refl)) ltac:(done) ltac:(done)
              ltac:(done) ltac:(repeat constructor) Hrun)
    as [(Hexp & _) | (Hexp & _)].
  - vm_compute in Hexp. discriminate.
  - exact Hexp.
Defined.

(** ** Two keys with different expiries *)

(** While a key that expires earlier is still waiting, the pending timeout
    is not the one of a key that expires later. *)
Lemma later_key_waits a b va vb Ea Eb basea baseb e w w' :
  Ea < Eb → reachable w → quiet b e = true → step e w = Some w' →
  waiting a va Ea basea w → waiting b vb Eb baseb w → ¬ fired b vb Eb baseb w'.
Proof.
  intros Hlt Hreach Hquiet Hstep Ha Hb Hf.
  destruct (quiet_expired_for b e w w' (reachable_timer_inv w Hreach) Hquiet Hstep)
    as [Heq | (h & t & -> & Ht & Hkey)].
  { by eapply waiting_not_fired. }
  destruct (reachable_armed_head w Hreach t) as (item & Hpeek & _ & Hexp & _).
  { rewrite Ht. apply list_elem_of_here. }
  destruct Hb as (_ & _ & _ & _ & t' & item' & Ht' & _ & _ & _ & Hmine).
  assert (t' = t) as -> by congruence.
  rewrite (Hmine Hkey) in Hexp. cbn in Hexp.
  destruct Ha as (_ & _ & Hq & Hheap & _).
  pose proof (root_minimal _ _ Hheap Hpeek _ Hq) as Hmin. cbn in Hmin.
  injection Hexp as Hexp. lia.
Qed.

Lemma in_order_run a b va vb Ea Eb basea baseb es : ∀ w w',
  Ea < Eb → reachable w →
  Forall (λ e, quiet a e && quiet b e = true) es → run es w = Some w' →
  (waiting a va Ea basea w ∧ waiting b vb Eb baseb w)
  ∨ (fired a va Ea basea w ∧ waiting b vb Eb baseb w)
  ∨ (fired a va Ea basea w ∧ fired b vb Eb baseb w) →
  (waiting a va Ea basea w' ∧ waiting b vb Eb baseb w')
  ∨ (fired a va Ea basea w' ∧ waiting b vb Eb baseb w')
  ∨ (fired a va Ea basea w' ∧ fired b vb Eb baseb w').
Proof.
  induction es as [|e es IH]; intros w w' Hlt Hreach Hes; cbn [run].
  - by intros [= <-].
  - apply Forall_cons in Hes as (He & Hes). apply andb_true_iff in He as (Hqa & Hqb).
    destruct (step e w) as [w1|] eqn:Hstep; [|done]. intros Hrun Hinv.
    eapply IH; [done | by eapply reachable_step | done | done |].
    destruct Hinv as [(Ha & Hb) | [(Ha & Hb) | (Ha & Hb)]].
    + destruct (waiting_step _ _ _ _ _ _ _ Hqb Hstep Hb) as [Hb' | Hb'].
      * destruct (waiting_step _ _ _ _ _ _ _ Hqa Hstep Ha) as [Ha' | Ha'];
          [by left | right; by left].
      * exfalso. by eapply (later_key_waits a b).
    + pose proof (fired_step _ _ _ _ _ _ _ Hqa Hstep Ha) as Ha'.
      destruct (waiting_step _ _ _ _ _ _ _ Hqb Hstep Hb) as [Hb' | Hb'];
        [right; by left | right; by right].
    + right. right. split; by eapply fired_step.
Qed.

Lemma two_sets_waiting k1 k2 v1 v2 ttl1 ttl2 d w0 :
  reachable w0 → k1 ≠ k2 → 0 <= d →
  ttl1 ≠ 0 → now w0 + ttl1 ≠ 0 → ttl2 ≠ 0 → now w0 + d + ttl2 ≠ 0 →
  ∃ w2, run [CallSet k1 v1 (Some ttl1); Elapse d; CallSet k2 v2 (Some ttl2)] w0
        = Some w2
        ∧ reachable w2
        ∧ waiting k1 v1 (now w0 + ttl1) (expired_for k1 w0) w2
        ∧ waiting k2 v2 (now w0 + d + ttl2) (expired_for k2 w0) w2.
Proof.
  intros Hreach Hne Hd Httl1 Hnz1 Httl2 Hnz2. cbn [run step].
  assert ((0 <=? d) = true) as -> by lia.
  destruct (set_frame k1 v1 (Some ttl1) w0) as (Hc1 & Hn1).
  set (w1 := set_now _ (TempBox.set k1 v1 (Some ttl1) w0)).
  assert (now w1 = now w0 + d) as Hnow1 by (subst w1; cbn [now set_now]; by rewrite Hn1).
  assert (reachable w1) as Hreach1.
  { eapply (reachable_step (Elapse d)); [eapply (reachable_step (CallSet _ _ _)) |];
      [done | done |]. cbn. by assert ((0 <=? d) = true) as -> by lia. }
  assert (waiting k1 v1 (now w0 + ttl1) (expired_for k1 w0) w1) as Hw1.
  { eapply waiting_ext; [by apply set_waiting | done..]. }
  assert (expired_for k2 w1 = expired_for k2 w0) as Hbase.
  { eapply (expired_for_snoc k2 (OnSet k1 v1)); [|congruence]. subst w1. by cbn. }
  clearbody w1. eexists. split; [done|].
  split; [by eapply (reachable_step (CallSet _ _ _))|]. split.
  - eapply (waiting_step_nonfire k1 _ _ _ (CallSet k2 v2 (Some ttl2))); [done | | done | done].
    cbn. apply bool_decide_eq_true. congruence.
  - rewrite <- Hbase, <- Hnow1. apply set_waiting; [done | done | by rewrite Hnow1].
Qed.

Lemma in_order_states a b va vb Ea Eb w0 w :
  (waiting a va Ea (expired_for a w0) w ∧ waiting b vb Eb (expired_for b w0) w)
  ∨ (fired a va Ea (expired_for a w0) w ∧ waiting b vb Eb (expired_for b w0) w)
  ∨ (fired a va Ea (expired_for a w0) w ∧ fired b vb Eb (expired_for b w0) w) →
  in_order a b va vb w0 w.
Proof.
  unfold in_order.
  intros [((? & _) & (? & _)) | [((? & _) & (? & _)) | ((? & _) & (? & _))]]; eauto.
Qed.

(** X12. Keys expire in the order of their expiries.  On any store a
    program can have reached, [set(k1, v1, ttl1)] and, [d] ms later,
    [set(k2, v2, ttl2)]; afterwards time passes, timeouts fire and other
    keys are set, read and deleted.  If [k1] expires strictly before [k2],
    [onExpire] is never called for [k2] while it has not been called for
    [k1]; if [k2] expires strictly before [k1], the other way round; and
    each of the two calls is made at most once, with the value set. *)
Theorem expiry_in_order (k1 k2 : string) (v1 v2 : JsValue) (ttl1 ttl2 d : Z)
    (w0 w : World) (es : list Event) :
  reachable w0 → k1 ≠ k2 → 0 <= d →
  ttl1 ≠ 0 → now w0 + ttl1 ≠ 0 → ttl2 ≠ 0 → now w0 + d + ttl2 ≠ 0 →
  Forall (λ e, quiet k1 e && quiet k2 e = true) es →
  run (CallSet k1 v1 (Some ttl1) :: Elapse d :: CallSet k2 v2 (Some ttl2) :: es) w0
  = Some w →
  (now w0 + ttl1 < now w0 + d + ttl2 → in_order k1 k2 v1 v2 w0 w)
  ∧ (now w0 + d + ttl2 < now w0 + ttl1 → in_order k2 k1 v2 v1 w0 w).
Proof.
  intros Hreach Hne Hd Httl1 Hnz1 Httl2 Hnz2 Hes Hrun.
  destruct (two_sets_waiting k1 k2 v1 v2 ttl1 ttl2 d w0)
    as (w2 & Hrun2 & Hreach2 & Hw1 & Hw2); [done..|].
  change (CallSet k1 v1 (Some ttl1) :: Elapse d :: CallSet k2 v2 (Some ttl2) :: es)
    with ([CallSet k1 v1 (Some ttl1); Elapse d; CallSet k2 v2 (Some ttl2)] ++ es)
    in Hrun.
  apply run_app in Hrun as (w2' & Hrun2' & Hrun).
  assert (w2' = w2) as -> by congruence.
  split; intros Hlt.
  - apply (in_order_states k1 k2 v1 v2 (now w0 + ttl1) (now w0 + d + ttl2) w0 w).
    eapply (in_order_run k1 k2); [exact Hlt | done | done | done |]. by left.
  - apply (in_order_states k2 k1 v2 v1 (now w0 + d + ttl2) (now w0 + ttl1) w0 w).
    eapply (in_order_run k2 k1); [exact Hlt | done | | done |]; [|by left].
    eapply Forall_impl; [done|]. cbn. intros e He.
    apply andb_true_iff in He as (? & ?). by apply andb_true_iff.
Qed.

Lemma expiry_in_order_witness :
  ∃ w, run [CallSet "first" (JStr "1") (Some 300); Elapse 0;
            CallSet "second" (JStr "2") (Some 500); Elapse 300; Fire 1%nat;
            Elapse 200; Fire 2%nat] (new 0) = Some w
       ∧ expired w = [("first", JStr "1"); ("second", JStr "2")]
       ∧ in_order "first" "second" (JStr "1") (JStr "2") (new 0) w.
Proof.
  eexists. split; [vm_compute; reflexivity|]. split; [vm_compute; reflexivity|].
  refine (proj1 (expiry_in_order "first" "second" (JStr "1") (JStr "2") 300 500 0
                   (new 0) _ [Elapse 300; Fire 1%nat; Elapse 200; Fire 2%nat]
                   _ _ _ _ _ _ _ _ _) _).
  - by exists 0, [].
  - done.
  - done.
  - done.
  - done.
  - done.
  - done.
  - repeat constructor.
  - vm_compute. reflexivity.
  - vm_compute. reflexivity.
Defined.

(** ** A key that never had a TTL *)

Lemma reconcile_subset tbl clock q q' armed x :
  reconcile tbl clock q q' armed → x ∈ q' → x ∈ q.
Proof.
  induction 1 as [|q q1 q' item armed _ _ Hperm _ IH|]; intros Hx; [done| |done].
  rewrite Hperm. apply list_elem_of_further. by apply IH.
Qed.

Lemma scheduleNext_unscheduled k w :
  timer_inv w → heap_ordered (queue w) →
  Forall (λ x, qv_key x ≠ k) (queue w) →
  unscheduled k (TempBox._scheduleNext w).
Proof.
  intros Hinv Hheap Hall. rewrite scheduleNext_unfold.
  destruct (cleared_frame w) as (_ & _ & _ & Hq & _).
  destruct (scheduleNext_loop_reconciles (TinyQueue.length (queue (cleared w)))
              (cleared w)) as (armed & Hrec & Htimeouts & _ & Hpeek);
    [done | by rewrite Hq |].
  rewrite Hq in Hrec at 1. rewrite cleared_timeouts in Htimeouts by done.
  assert (Forall (λ x, qv_key x ≠ k)
            (queue (TempBox._scheduleNext_loop
                      (TinyQueue.length (queue (cleared w))) (cleared w)))) as Hall'.
  { apply Forall_forall. intros x Hx. rewrite Forall_forall in Hall.
    apply Hall. by eapply reconcile_subset. }
  split; [done|]. rewrite Htimeouts.
  destruct armed as [[[item entry] delay]|]; [|done].
  constructor; [|done]. cbn.
  rewrite Forall_forall in Hall'. apply Hall'.
  apply list_elem_of_lookup. by exists 0%nat.
Qed.

Lemma unscheduled_ext k w w' :
  queue w' = queue w → timeouts w' = timeouts w → unscheduled k w → unscheduled k w'.
Proof. unfold unscheduled. by intros -> ->. Qed.

Lemma unscheduled_step k e w w' :
  reachable w → never_ttl k e = true → step e w = Some w' →
  unscheduled k w → unscheduled k w'.
Proof.
  intros Hreach Hnever Hstep Hun.
  pose proof (reachable_timer_inv w Hreach) as Hinv.
  pose proof (reachable_heap_ordered w Hreach) as Hheap.
  destruct e as [j v' ttlMs|j|j|j| | |d|h]; cbn in Hnever, Hstep.
  - injection Hstep as <-. unfold TempBox.set.
    destruct (truthy ttlMs) eqn:Httl; [|by eapply unscheduled_ext; [..|exact Hun]].
    rewrite orb_false_r in Hnever. apply bool_decide_eq_true in Hnever.
    destruct ((λ ttl, now w + ttl) <$> ttlMs) as [e|];
      [|by eapply unscheduled_ext; [..|exact Hun]].
    destruct (truthy (Some e)); [|by eapply unscheduled_ext; [..|exact Hun]].
    eapply unscheduled_ext; [reflexivity | reflexivity |].
    apply scheduleNext_unscheduled.
    + by eapply timer_inv_ext.
    + cbn. by apply push_spec.
    + cbn. destruct (push_spec (queue w) (mkQueued e j) Hheap) as (_ & ->).
      constructor; [done|]. by destruct Hun.
  - injection Hstep as <-. destruct (get_frame j w) as (Ht & _ & Hq & _).
    by eapply unscheduled_ext.
  - injection Hstep as <-. rewrite has_world.
    destruct (get_frame j w) as (Ht & _ & Hq & _). by eapply unscheduled_ext.
  - injection Hstep as <-. destruct (delete_frame j w) as (Ht & _ & Hq & _).
    by eapply unscheduled_ext.
  - injection Hstep as <-. unfold unscheduled. rewrite clear_queue.
    by destruct (clear_frame w Hinv) as (-> & _).
  - injection Hstep as <-. unfold unscheduled. rewrite stop_timeouts by done.
    destruct (stop_frame w) as (_ & -> & _). by destruct Hun.
  - destruct (0 <=? d); [|done]. injection Hstep as <-. by eapply unscheduled_ext.
  - apply fire_inv in Hstep as (t & _ & _ & _ & ->); [|done].
    unfold TempBox.on_timeout. apply scheduleNext_unscheduled; [by left | |]; cbn.
    + by apply pop_heap_ordered.
    + pose proof (pop_spec _ Hheap) as Hpop. destruct Hun as (Hall & _).
      destruct (TinyQueue.pop (queue w)) as [[top|] q1]; cbn.
      * destruct Hpop as (_ & _ & Hperm). rewrite Hperm in Hall.
        by apply Forall_cons in Hall as (_ & ?).
      * by destruct Hpop as (_ & ->).
Qed.

Lemma unscheduled_run k es : ∀ w w',
  reachable w → Forall (λ e, never_ttl k e = true) es → run es w = Some w' →
  unscheduled k w → unscheduled k w'.
Proof.
  induction es as [|e es IH]; intros w w' Hreach Hes; cbn [run].
  - by intros [= <-].
  - apply Forall_cons in Hes as (He & Hes).
    destruct (step e w) as [w1|] eqn:Hstep; [|done]. intros Hrun Hun.
    eapply IH; [by eapply reachable_step | done | done |].
    by eapply unscheduled_step.
Qed.

Lemma keeps_never_ttl k e : keeps k e = true → never_ttl k e = true.
Proof. destruct e; cbn; try done. intros ->. done. Qed.

Lemma persistent_step k v e w w' :
  reachable w → keeps k e = true → step e w = Some w' →
  unscheduled k w → data w !! k = Some (mkEntry v None) →
  data w' !! k = Some (mkEntry v None).
Proof.
  intros Hreach Hkeeps Hstep (_ & Hall) Hk.
  destruct e as [j v' ttlMs|j|j|j| | |d|h]; try discriminate; cbn in Hkeeps, Hstep;
    try apply bool_decide_eq_true in Hkeeps.
  - injection Hstep as <-. by rewrite set_lookup_ne.
  - injection Hstep as <-. destruct (decide (j = k)) as [->|Hne];
      [|by rewrite get_lookup_ne].
    unfold TempBox.get. by rewrite Hk.
  - injection Hstep as <-. rewrite has_world.
    destruct (decide (j = k)) as [->|Hne]; [|by rewrite get_lookup_ne].
    unfold TempBox.get. by rewrite Hk.
  - injection Hstep as <-. by rewrite delete_lookup_ne.
  - injection Hstep as <-. by destruct (stop_frame w) as (-> & _).
  - destruct (0 <=? d); [|done]. by injection Hstep as <-.
  - apply fire_inv in Hstep as (t & Ht & _ & _ & ->);
      [|by apply reachable_timer_inv].
    destruct (on_timeout_frame t (set_timeouts [] w)) as (-> & _). cbn.
    rewrite Ht in Hall. apply Forall_cons in Hall as (Hne & _).
    by rewrite lookup_delete_ne.
Qed.

Lemma persistent_run k v es : ∀ w w',
  reachable w → Forall (λ e, keeps k e = true) es → run es w = Some w' →
  unscheduled k w → data w !! k = Some (mkEntry v None) →
  data w' !! k = Some (mkEntry v None).
Proof.
  induction es as [|e es IH]; intros w w' Hreach Hes; cbn [run].
  - by intros [= <-].
  - apply Forall_cons in Hes as (He & Hes).
    destruct (step e w) as [w1|] eqn:Hstep; [|done]. intros Hrun Hun Hk.
    eapply IH; [by eapply reachable_step | done | done | |].
    + eapply unscheduled_step; [done | by apply keeps_never_ttl | done | done].
    + by eapply persistent_step.
Qed.

(** X13. A key that never had a TTL does not expire.  On a store on which
    [k] has never been set with a truthy TTL, after [set(k, v)] without
    TTL (or with a falsy one), whatever happens next except a [set] or
    [delete] of [k] or a [clear] — timeouts firing, time passing, calls on
    other keys, with or without TTL — [get(k)] answers [v] and changes
    nothing, and [has(k)] answers whether [v] is not [undefined]. *)
Theorem key_without_ttl_persists (k : string) (v : JsValue) (ttlMs : option Z)
    (start : Z) (es1 es2 : list Event) (w : World) :
  truthy ttlMs = false →
  Forall (λ e, never_ttl k e = true) es1 →
  Forall (λ e, keeps k e = true) es2 →
  run (es1 ++ CallSet k v ttlMs :: es2) (new start) = Some w →
  TempBox.get k w = (v, w)
  ∧ TempBox.has k w = (bool_decide (v ≠ JUndefined), w).
Proof.
  intros Httl Hes1 Hes2 Hrun.
  apply run_app in Hrun as (w1 & Hrun1 & Hrun2). cbn [run step] in Hrun2.
  assert (reachable w1) as Hreach1 by (by exists start, es1).
  assert (unscheduled k w1) as Hun1.
  { eapply (unscheduled_run k es1 (new start)); [by exists start, [] | done | done |].
    by split. }
  assert (data w !! k = Some (mkEntry v None)) as Hk.
  { eapply (persistent_run k v es2 (TempBox.set k v ttlMs w1));
      [by eapply (reachable_step (CallSet k v ttlMs)) | done | done | |].
    - eapply (unscheduled_step k (CallSet k v ttlMs)); [done | | done | done].
      cbn. rewrite Httl. apply orb_true_r.
    - rewrite set_lookup. by rewrite Httl. }
  assert (TempBox.get k w = (v, w)) as Hget.
  { unfold TempBox.get. by rewrite Hk. }
  split; [done|]. unfold TempBox.has. by rewrite Hget.
Qed.

Lemma key_without_ttl_persists_witness :
  ∃ w, run ([CallSet "a" (JStr "1") (Some 300); CallSet "k" JNull (Some 0)]
            ++ CallSet "k" (JStr "v") None
            :: [Elapse 300; Fire 0%nat; CallHas "k"; Elapse 10000]) (new 0)
       = Some w
       ∧ TempBox.get "k" w = (JStr "v", w).
Proof.
  eexists. split; [vm_compute; reflexivity|].
  refine (proj1 (key_without_ttl_persists "k" (JStr "v") None 0
                   [CallSet "a" (JStr "1") (Some 300); CallSet "k" JNull (Some 0)]
                   [Elapse 300; Fire 0%nat; CallHas "k"; Elapse 10000] _ _ _ _ _)).
  - done.
  - repeat constructor.
  - repeat constructor.
  - vm_compute. reflexivity.
Defined.

(** ** A key that is gone and has no timeout pending *)

Lemma absent_step k e w w' :
  sets_key k e = false → step e w = Some w' →
  data w !! k = None ∧ timer_inv w ∧ Forall (λ t, t_key t ≠ k) (timeouts w) →
  (data w' !! k = None ∧ timer_inv w' ∧ Forall (λ t, t_key t ≠ k) (timeouts w'))
  ∧ expired_for k w' = expired_for k w.
Proof.
  intros Hsets Hstep (Hk & Hinv & Hall).
  pose proof (step_timer_inv _ _ _ Hinv Hstep) as Hinv'.
  assert (data w' !! k = None) as Hk'.
  { destruct (step_only_removes k e w w' Hsets Hstep); congruence. }
  split; [split; [done|split; [done|]]|].
  - destruct e as [j v' ttlMs|j|j|j| | |d|h]; cbn in Hsets, Hstep.
    + injection Hstep as <-. apply bool_decide_eq_false in Hsets.
      by apply set_foreign.
    + injection Hstep as <-. by destruct (get_frame j w) as (-> & _).
    + injection Hstep as <-. rewrite has_world.
      by destruct (get_frame j w) as (-> & _).
    + injection Hstep as <-. by destruct (delete_frame j w) as (-> & _).
    + injection Hstep as <-. by destruct (clear_frame w Hinv) as (-> & _).
    + injection Hstep as <-. by rewrite stop_timeouts.
    + destruct (0 <=? d); [|done]. by injection Hstep as <-.
    + apply fire_inv in Hstep as (t & Ht & _ & _ & ->); [|done].
      unfold TempBox.on_timeout. apply scheduleNext_foreign; [by left|].
      cbn. rewrite Ht in Hall. apply Forall_cons in Hall as (Hne & _).
      by rewrite lookup_delete_ne.
  - destruct e as [j v' ttlMs|j|j|j| | |d|h]; cbn in Hsets, Hstep.
    + injection Hstep as <-. destruct (set_frame j v' ttlMs w) as (Hc & _).
      eapply expired_for_snoc; [done|]. congruence.
    + injection Hstep as <-. destruct (decide (j = k)) as [->|Hne].
      * unfold TempBox.get. by rewrite Hk.
      * destruct (get_calls j w) as [Hc | (v' & Hc)].
        -- by apply expired_for_same.
        -- eapply expired_for_snoc; [done|]. congruence.
    + injection Hstep as <-. rewrite has_world. destruct (decide (j = k)) as [->|Hne].
      * unfold TempBox.get. by rewrite Hk.
      * destruct (get_calls j w) as [Hc | (v' & Hc)].
        -- by apply expired_for_same.
        -- eapply expired_for_snoc; [done|]. congruence.
    + injection Hstep as <-. destruct (delete_calls j w) as [Hc | Hc].
      * by apply expired_for_same.
      * eapply expired_for_snoc; [done|]. congruence.
    + injection Hstep as <-. destruct (clear_frame w Hinv) as (_ & _ & _ & Hc).
      eapply expired_for_snoc; [done|]. congruence.
    + injection Hstep as <-. apply expired_for_same.
      by destruct (stop_frame w) as (_ & _ & _ & -> & _).
    + destruct (0 <=? d); [|done]. by injection Hstep as <-.
    + apply fire_inv in Hstep as (t & Ht & _ & _ & ->); [|done].
      rewrite Ht in Hall. apply Forall_cons in Hall as (Hne & _).
      destruct (on_timeout_frame t (set_timeouts [] w)) as (_ & _ & Hc).
      eapply (expired_for_snoc k _ (set_timeouts [] w)); [done|]. congruence.
Qed.

Lemma absent_run k es : ∀ w w',
  Forall (λ e, sets_key k e = false) es → run es w = Some w' →
  data w !! k = None ∧ timer_inv w ∧ Forall (λ t, t_key t ≠ k) (timeouts w) →
  expired_for k w' = expired_for k w.
Proof.
  induction es as [|e es IH]; intros w w' Hes; cbn [run].
  - by intros [= <-].
  - apply Forall_cons in Hes as (He & Hes).
    destruct (step e w) as [w1|] eqn:Hstep; [|done]. intros Hrun Hinv.
    destruct (absent_step k e w w1 He Hstep Hinv) as (Hinv1 & <-).
    by eapply IH.
Qed.

(** X14. Deleting a key suppresses its expiry callback whenever the pending
    timeout is not that key's own: on any store a program can have
    reached, if no pending timeout is registered for [k], then after
    [delete(k)], whatever happens except a [set] of [k], [onExpire] is
    never called for [k] — its items still in the queue are dropped as
    stale, not fired. *)
Theorem delete_suppresses_expiry (k : string) (w w' : World) (es : list Event) :
  reachable w →
  Forall (λ t, t_key t ≠ k) (timeouts w) →
  Forall (λ e, sets_key k e = false) es →
  run es (TempBox.delete k w).2 = Some w' →
  expired_for k w' = expired_for k w.
Proof.
  intros Hreach Hall Hes Hrun.
  destruct (delete_frame k w) as (Ht & Htimer & _).
  rewrite (absent_run k es _ _ Hes Hrun).
  - destruct (delete_calls k w) as [Hc | Hc].
    + by apply expired_for_same.
    + eapply expired_for_snoc; [done|]. congruence.
  - split; [|split].
    + unfold TempBox.delete. destruct (data w !! k) eqn:Hk; [|done].
      cbn. apply lookup_delete_eq.
    + eapply timer_inv_ext; [done | done |]. by apply reachable_timer_inv.
    + by rewrite Ht.
Qed.

Lemma delete_suppresses_expiry_witness :
  ∃ w w', run [CallSet "a" (JStr "1") (Some 300); CallSet "b" (JStr "2") (Some 500)]
            (new 0) = Some w
          ∧ run [Elapse 300; Fire 1%nat; Elapse 10000] (TempBox.delete "b" w).2
            = Some w'
          ∧ expired w' = [("a", JStr "1")]
          ∧ expired_for "b" w' = expired_for "b" w.
Proof.
  eexists. eexists. split; [vm_compute; reflexivity|].
  split; [vm_compute; reflexivity|]. split; [vm_compute; reflexivity|].
  match goal with
  | |- expired_for _ ?w' = expired_for _ ?w =>
      assert (run [Elapse 300; Fire 1%nat; Elapse 10000] (TempBox.delete "b" w).2
              = Some w') as Hrun by (vm_compute; reflexivity)
  end.
  refine (delete_suppresses_expiry "b" _ _ [Elapse 300; Fire 1%nat; Elapse 10000]
            (ex_intro _ 0 (ex_intro _
               [CallSet "a" (JStr "1") (Some 300); CallSet "b" (JStr "2") (Some 500)]
               eq_refl)) _ _ Hrun).
  - vm_compute. repeat constructor. discriminate.
  - repeat constructor.
Defined.
